(** * hotwheels-id.js: frame geometry, recognition gate and catalog lookup

    A shallow embedding of the core of the application's main module:
    the cover-fit crop arithmetic ([computeCoverCrop], [computeOCRCrop]),
    the timestamp gate and the asynchronous continuation of [maybeRunOCR],
    the structural pattern [CODE_REGEX] and the catalog lookup.

    Numbers.  A JavaScript number is an IEEE double; every finite double
    is a rational, so numbers are modelled as [Q] with exact arithmetic
    (rounding is not modelled).  [Qdiv] by zero is 0 whereas JavaScript
    yields an infinity or NaN: each statement that depends on a quotient
    carries the hypotheses that keep its divisors away from zero.

    Strings.  A JavaScript string is a sequence of UTF-16 code units; it
    is modelled as a list of code units ([N]). *)

From Stdlib Require Import QArith Qminmax Lqa Lia ZArith NArith List Bool String Ascii.
From Stdlib Require Import DecimalString DecimalNat.
Import ListNotations.

Local Open Scope Q_scope.

(* ------------------------------------------------------------------ *)
(** ** Numbers *)

(** [a < b] on numbers, as a boolean. *)
Definition Qltb (a b : Q) : bool :=
  (Qnum a * QDen b <? Qnum b * QDen a)%Z.

(** [a > b] on numbers, as a boolean. *)
Definition Qgtb (a b : Q) : bool := Qltb b a.

(* ------------------------------------------------------------------ *)
(** ** Geometry *)

Module Geometry.

(** The object literal [{ sx, sy, sw, sh }] both functions return. *)
Record Rect : Type := mkRect { sx : Q; sy : Q; sw : Q; sh : Q }.

(** Field-wise equality of rectangles up to the value of the rationals. *)
Definition Rect_eq (r1 r2 : Rect) : Prop :=
  sx r1 == sx r2 /\ sy r1 == sy r2 /\ sw r1 == sw r2 /\ sh r1 == sh r2.

(** The part of an [ImageBitmap] the geometry reads. *)
Record Frame : Type := mkFrame { width : Q; height : Q }.

(** The part of the output canvas element the geometry reads. *)
Record Canvas : Type := mkCanvas { canvas_width : Q; canvas_height : Q }.

Definition GUIDE_WIDTH : Q := 100.
Definition GUIDE_HEIGHT : Q := 40.

Definition computeCoverCrop (srcW srcH dstW dstH : Q) : Rect :=
  let srcRatio := srcW / srcH in
  let dstRatio := dstW / dstH in
  if Qgtb srcRatio dstRatio then
    let sh := srcH in
    let sw := sh * dstRatio in
    let sx := (srcW - sw) / 2 in
    let sy := 0 in
    {| sx := sx; sy := sy; sw := sw; sh := sh |}
  else
    let sw := srcW in
    let sh := sw / dstRatio in
    let sx := 0 in
    let sy := (srcH - sh) / 2 in
    {| sx := sx; sy := sy; sw := sw; sh := sh |}.

(** [computeOCRCrop] reads the module-level [canvas]; it is passed here. *)
Definition computeOCRCrop (canvas : Canvas) (frame : Frame) : Rect :=
  let displayCrop :=
    computeCoverCrop (width frame) (height frame)
                     (canvas_width canvas) (canvas_height canvas) in
  let scaleX := sw displayCrop / canvas_width canvas in
  let scaleY := sh displayCrop / canvas_height canvas in
  let boxX := (canvas_width canvas - GUIDE_WIDTH) / 2 in
  let boxY := (canvas_height canvas - GUIDE_HEIGHT) / 2 in
  {| sx := sx displayCrop + boxX * scaleX;
     sy := sy displayCrop + boxY * scaleY;
     sw := GUIDE_WIDTH * scaleX;
     sh := GUIDE_HEIGHT * scaleY |}.

(** The guide box as [drawHelperBox] places it on the canvas; the fields
    read as x, y, width and height in canvas coordinates. *)
Definition guideBox (canvas : Canvas) : Rect :=
  let x := (canvas_width canvas - GUIDE_WIDTH) / 2 in
  let y := (canvas_height canvas - GUIDE_HEIGHT) / 2 in
  {| sx := x; sy := y; sw := GUIDE_WIDTH; sh := GUIDE_HEIGHT |}.

(** The specification's mapping of a canvas rectangle into source space,
    given the source rectangle [crop] that [drawFrame] stretches over
    the whole canvas: offset from the crop's origin, size scaled by the
    source pixels per canvas pixel of each axis. *)
Definition map_to_source (crop : Rect) (canvas : Canvas) (box : Rect) : Rect :=
  let perX := sw crop / canvas_width canvas in
  let perY := sh crop / canvas_height canvas in
  {| sx := sx crop + sx box * perX;
     sy := sy crop + sy box * perY;
     sw := sw box * perX;
     sh := sh box * perY |}.

(** Where on the canvas a source rectangle [r] appears once [drawFrame]
    has painted the source rectangle [crop] over the whole canvas with
    [ctx.drawImage(frame, sx, sy, sw, sh, 0, 0, canvas.width,
    canvas.height)]: the offset from the crop's origin and the size,
    both stretched by canvas pixels per source pixel. *)
Definition canvas_image (crop : Rect) (canvas : Canvas) (r : Rect) : Rect :=
  let perX := canvas_width canvas / sw crop in
  let perY := canvas_height canvas / sh crop in
  {| sx := (sx r - sx crop) * perX;
     sy := (sy r - sy crop) * perY;
     sw := sw r * perX;
     sh := sh r * perY |}.

(** [r] with every coordinate multiplied by [k]. *)
Definition Rect_scale (k : Q) (r : Rect) : Rect :=
  {| sx := k * sx r; sy := k * sy r; sw := k * sw r; sh := k * sh r |}.

(** [r] lies inside [outer]. *)
Definition Rect_within (r outer : Rect) : Prop :=
  sx outer <= sx r /\ sy outer <= sy r /\
  sx r + sw r <= sx outer + sw outer /\
  sy r + sh r <= sy outer + sh outer.

(** How a call ends: with the value it returns or with an exception. *)
Inductive GeometryError : Type := InvalidDimension.

Inductive Outcome (A : Type) : Type :=
| Returns (a : A)
| Throws (e : GeometryError).
Arguments Returns {A} a.
Arguments Throws {A} e.

(** Neither function body has a [throw], and arithmetic on numbers does
    not raise: a call always ends by returning its object literal. *)
Definition call_computeCoverCrop (srcW srcH dstW dstH : Q) : Outcome Rect :=
  Returns (computeCoverCrop srcW srcH dstW dstH).

Definition call_computeOCRCrop (canvas : Canvas) (frame : Frame) : Outcome Rect :=
  Returns (computeOCRCrop canvas frame).

(** Some dimension handed to [computeCoverCrop] is zero or negative. *)
Definition nonpositive_dimension (srcW srcH dstW dstH : Q) : Prop :=
  srcW <= 0 \/ srcH <= 0 \/ dstW <= 0 \/ dstH <= 0.

End Geometry.

Import Geometry.

(* ------------------------------------------------------------------ *)
(** ** Strings *)

Module JSString.

Local Open Scope N_scope.

(** A string value: its UTF-16 code units, in order. *)
Definition jsstring : Type := list N.

(** Code unit of an ASCII character, and the string of an ASCII literal. *)
Definition code (a : ascii) : N := N_of_ascii a.

Definition str (s : string) : jsstring := map code (list_ascii_of_string s).

(** [a === b] on strings. *)
Fixpoint str_eqb (a b : jsstring) : bool :=
  match a, b with
  | [], [] => true
  | x :: a', y :: b' => (x =? y) && str_eqb a' b'
  | _, _ => false
  end.

(** The code units [String.prototype.trim] strips: ECMAScript WhiteSpace
    (TAB, VT, FF, SP, NBSP, ZWNBSP and the Unicode space separators) and
    LineTerminator (LF, CR, LS, PS). *)
Definition isWhiteSpace (c : N) : bool :=
  (c =? 9) || (c =? 10) || (c =? 11) || (c =? 12) || (c =? 13) ||
  (c =? 32) || (c =? 160) || (c =? 5760) ||
  ((8192 <=? c) && (c <=? 8202)) ||
  (c =? 8232) || (c =? 8233) || (c =? 8239) || (c =? 8287) ||
  (c =? 12288) || (c =? 65279).

Fixpoint trimStart (s : jsstring) : jsstring :=
  match s with
  | [] => []
  | c :: s' => if isWhiteSpace c then trimStart s' else s
  end.

Definition trimEnd (s : jsstring) : jsstring := rev (trimStart (rev s)).

Definition trim (s : jsstring) : jsstring := trimEnd (trimStart s).

(** [s.split(sep)] for a separator of one code unit: the pieces between
    the occurrences of [sep], at least one piece. *)
Fixpoint split (sep : N) (s : jsstring) : list jsstring :=
  match s with
  | [] => [[]]
  | c :: s' =>
      if c =? sep then [] :: split sep s'
      else match split sep s' with
           | [] => [[c]]
           | piece :: pieces => (c :: piece) :: pieces
           end
  end.

(** [s.startsWith(p)]. *)
Fixpoint startsWith (s p : jsstring) {struct p} : bool :=
  match p, s with
  | [], _ => true
  | _ :: _, [] => false
  | y :: p', x :: s' => (x =? y) && startsWith s' p'
  end.

End JSString.

Import JSString.

(* ------------------------------------------------------------------ *)
(** ** Regular expressions *)

Module RegExp.

Local Open Scope N_scope.

(** The fragment of the pattern language [CODE_REGEX] is written in:
    literal characters, character classes given by ranges, sequencing,
    and bounded repetition (unfolded into sequencing and choice). *)
Inductive regex : Type :=
| Void
| Eps
| Chr (c : N)
| Class (ranges : list (N * N))
| Cat (r s : regex)
| Alt (r s : regex).

Fixpoint in_ranges (c : N) (ranges : list (N * N)) : bool :=
  match ranges with
  | [] => false
  | (lo, hi) :: rest => ((lo <=? c) && (c <=? hi)) || in_ranges c rest
  end.

Fixpoint nullable (r : regex) : bool :=
  match r with
  | Void => false
  | Eps => true
  | Chr _ => false
  | Class _ => false
  | Cat r s => nullable r && nullable s
  | Alt r s => nullable r || nullable s
  end.

(** Brzozowski derivative: what remains to be matched after reading [c]. *)
Fixpoint deriv (c : N) (r : regex) : regex :=
  match r with
  | Void => Void
  | Eps => Void
  | Chr d => if c =? d then Eps else Void
  | Class ranges => if in_ranges c ranges then Eps else Void
  | Cat r s =>
      if nullable r then Alt (Cat (deriv c r) s) (deriv c s)
      else Cat (deriv c r) s
  | Alt r s => Alt (deriv c r) (deriv c s)
  end.

(** Whether the whole of [s] matches [r]. *)
Fixpoint matches (r : regex) (s : jsstring) : bool :=
  match s with
  | [] => nullable r
  | c :: s' => matches (deriv c r) s'
  end.

Fixpoint exactly (n : nat) (r : regex) : regex :=
  match n with
  | O => Eps
  | S n' => Cat r (exactly n' r)
  end.

Fixpoint at_most (n : nat) (r : regex) : regex :=
  match n with
  | O => Eps
  | S n' => Alt Eps (Cat r (at_most n' r))
  end.

(** The quantifier [r{lo,hi}]. *)
Definition Repeat (lo hi : nat) (r : regex) : regex :=
  Cat (exactly lo r) (at_most (hi - lo) r).

(** [/^r$/.test(s)]: without the [m] flag the two anchors pin the match
    to the whole string. *)
Definition test (r : regex) (s : jsstring) : bool := matches r s.

(** The strings a pattern denotes. *)
Inductive lang : regex -> jsstring -> Prop :=
| lang_Eps : lang Eps []
| lang_Chr c : lang (Chr c) [c]
| lang_Class ranges c : in_ranges c ranges = true -> lang (Class ranges) [c]
| lang_Cat r s u v : lang r u -> lang s v -> lang (Cat r s) (u ++ v)
| lang_AltL r s u : lang r u -> lang (Alt r s) u
| lang_AltR r s u : lang s u -> lang (Alt r s) u.

End RegExp.

Import RegExp.

(* ------------------------------------------------------------------ *)
(** ** Catalog *)

Module Catalog.

Record HotWheelsEntry : Type := mkEntry {
  Number : jsstring;
  Name : jsstring;
  Year : jsstring;
  Color : jsstring
}.

(** The class [[A-Z0-9]]. *)
Definition code_class : regex :=
  Class [(code "A", code "Z"); (code "0", code "9")].

(** [/^[A-Z0-9]{3,5}-[A-Z0-9]{3,5}$/] *)
Definition CODE_REGEX : regex :=
  Cat (Repeat 3 5 code_class) (Cat (Chr (code "-")) (Repeat 3 5 code_class)).

(** Lines 209 to 215 of [maybeRunOCR]: from the recognized text to the
    catalog entry, if any. *)
Definition resolve (rawText : jsstring) (hotwheelsData : list HotWheelsEntry)
  : option HotWheelsEntry :=
  let text := trim rawText in
  if negb (test CODE_REGEX text) then None
  else
    let prefix := nth 0 (split (code "-") text) [] in
    find (fun e => startsWith prefix (Number e)) hotwheelsData.

(** The specification's reading of the pattern: an upper-case letter or
    a digit; a segment of three to five of them; two segments joined by
    a hyphen. *)
Definition isCodeChar (c : N) : bool :=
  ((code "A" <=? c) && (c <=? code "Z") || (code "0" <=? c) && (c <=? code "9"))%N.

Definition code_segment (a : jsstring) : Prop :=
  (3 <= List.length a <= 5)%nat /\ Forall (fun c => isCodeChar c = true) a.

Definition structural (text a b : jsstring) : Prop :=
  text = a ++ code "-" :: b /\ code_segment a /\ code_segment b.

(** [p] is a leading substring of [s]. *)
Definition is_prefix (p s : jsstring) : Prop := exists t, s = p ++ t.

(** [e] is the first entry of the catalog, in load order, that
    satisfies [P]. *)
Definition first_match (P : HotWheelsEntry -> Prop)
           (catalog : list HotWheelsEntry) (e : HotWheelsEntry) : Prop :=
  exists before after,
    catalog = before ++ e :: after /\ P e /\
    forall x, In x before -> ~ P x.

End Catalog.

Import Catalog.

(* ------------------------------------------------------------------ *)
(** ** Recognition: gate, attempt and completion *)

Module OCR.

Definition OCR_INTERVAL : Q := 750.

(** What the console receives. *)
Inductive LogLine : Type :=
| Log_OCRResult (text : jsstring)
| Log_Updated (number name : jsstring)
| Err_OCRFailed (err : jsstring).

(** The module-level variables and the page state [maybeRunOCR] touches.
    [worker] is whether the variable holds a worker; [table] is what
    [updateTable] last wrote into the four cells, if it ever ran. *)
Record State : Type := mkState {
  worker : bool;
  lastOcrTime : Q;
  hotwheelsData : list HotWheelsEntry;
  currentEntry : option HotWheelsEntry;
  canvas : Canvas;
  table : option HotWheelsEntry;
  console : list LogLine
}.

Definition set_lastOcrTime (t : Q) (st : State) : State :=
  {| worker := worker st; lastOcrTime := t;
     hotwheelsData := hotwheelsData st; currentEntry := currentEntry st;
     canvas := canvas st; table := table st; console := console st |}.

Definition set_currentEntry (e : HotWheelsEntry) (st : State) : State :=
  {| worker := worker st; lastOcrTime := lastOcrTime st;
     hotwheelsData := hotwheelsData st; currentEntry := Some e;
     canvas := canvas st; table := table st; console := console st |}.

Definition updateTable (entry : HotWheelsEntry) (st : State) : State :=
  {| worker := worker st; lastOcrTime := lastOcrTime st;
     hotwheelsData := hotwheelsData st; currentEntry := currentEntry st;
     canvas := canvas st; table := Some entry; console := console st |}.

Definition log (line : LogLine) (st : State) : State :=
  {| worker := worker st; lastOcrTime := lastOcrTime st;
     hotwheelsData := hotwheelsData st; currentEntry := currentEntry st;
     canvas := canvas st; table := table st;
     console := console st ++ [line] |}.

(** The decision of line 190 as the caller sees it: the attempt goes
    ahead when the early return is not taken. *)
Definition shouldRun (now lastRunTimestamp intervalMs : Q) : bool :=
  negb (Qltb (now - lastRunTimestamp) intervalMs).

(** [match.Number !== currentEntry?.Number]: with no current entry the
    right-hand side is [undefined], which no string equals. *)
Definition number_differs (m : HotWheelsEntry) (cur : option HotWheelsEntry) : bool :=
  match cur with
  | None => true
  | Some c => negb (str_eqb (Number m) (Number c))
  end.

(** Lines 217 to 221: the guarded replacement of [currentEntry].  The
    boolean tells whether the branch ran (table rewritten, line logged). *)
Definition update (newEntry : option HotWheelsEntry) (st : State) : State * bool :=
  match newEntry with
  | Some m =>
      if number_differs m (currentEntry st) then
        (log (Log_Updated (Number m) (Name m))
             (updateTable m (set_currentEntry m st)), true)
      else (st, false)
  | None => (st, false)
  end.

(** The synchronous part of [maybeRunOCR], up to the [await]: the worker
    check, the gate, and the crop handed on to the recognition engine
    ([None] when the function returned early).  [now] is the value
    [performance.now()] gives.  The drawing of the crop onto the second
    canvas and its conversion to grey levels write pixels only and are
    left out. *)
Definition maybeRunOCR_start (now : Q) (frame : Frame) (st : State)
  : State * option Rect :=
  if negb (worker st) then (st, None)
  else if Qltb (now - lastOcrTime st) OCR_INTERVAL then (st, None)
  else
    let st := set_lastOcrTime now st in
    let crop := computeOCRCrop (canvas st) frame in
    (st, Some crop).

(** How [worker.recognize] settles. *)
Inductive Recognition : Type :=
| Recognized (text : jsstring)
| Rejected (err : jsstring).

(** The rest of [maybeRunOCR], run when the promise settles, on the
    state of that moment. *)
Definition maybeRunOCR_resume (res : Recognition) (st : State) : State :=
  match res with
  | Recognized rawText =>
      let st := log (Log_OCRResult (trim rawText)) st in
      fst (update (resolve rawText (hotwheelsData st)) st)
  | Rejected err => log (Err_OCRFailed err) st
  end.

(** What happens to the state over time: a frame is grabbed and handed
    to [maybeRunOCR], or a pending recognition settles. *)
Inductive Event : Type :=
| FrameGrabbed (now : Q) (frame : Frame)
| RecognitionSettled (res : Recognition).

Definition step (st : State) (ev : Event) : State :=
  match ev with
  | FrameGrabbed now frame => fst (maybeRunOCR_start now frame st)
  | RecognitionSettled res => maybeRunOCR_resume res st
  end.

Definition run (st : State) (evs : list Event) : State := fold_left step evs st.

(** The state in which [startRenderLoop] is called: catalog loaded,
    worker created, nothing recognized yet. *)
Definition startup (catalog : list HotWheelsEntry) (cv : Canvas) : State :=
  {| worker := true; lastOcrTime := 0;
     hotwheelsData := catalog; currentEntry := None;
     canvas := cv; table := None; console := [] |}.

(** [c] is the first entry of the catalog that bears its number. *)
Definition first_of_its_number (catalog : list HotWheelsEntry)
           (c : HotWheelsEntry) : Prop :=
  find (fun e => str_eqb (Number e) (Number c)) catalog = Some c.

(** The current entry, when there is one, is the first of its number in
    the catalog. *)
Definition tracked (st : State) : Prop :=
  forall c, currentEntry st = Some c ->
            first_of_its_number (hotwheelsData st) c.

End OCR.

Import OCR.

(* ------------------------------------------------------------------ *)
(** ** Observations on a run *)

Module Observe.

(** Whether [maybeRunOCR], called at [now], goes on to the engine. *)
Definition attempts_at (now : Q) (frame : Frame) (st : State) : bool :=
  match snd (maybeRunOCR_start now frame st) with
  | Some _ => true
  | None => false
  end.

(** How many recognition attempts a run makes. *)
Fixpoint attempts (st : State) (evs : list Event) : nat :=
  match evs with
  | [] => O
  | ev :: evs' =>
      (match ev with
       | FrameGrabbed now frame => if attempts_at now frame st then 1 else 0
       | RecognitionSettled _ => 0
       end + attempts (step st ev) evs')%nat
  end.

(** The numbers of the entries the console reports as updated, oldest
    first. *)
Fixpoint updated_numbers (lines : list LogLine) : list jsstring :=
  match lines with
  | [] => []
  | Log_Updated number _ :: rest => number :: updated_numbers rest
  | _ :: rest => updated_numbers rest
  end.

(** No two neighbours of the list are equal. *)
Fixpoint no_adjacent_repeat (l : list jsstring) : Prop :=
  match l with
  | [] => True
  | x :: t =>
      match t with
      | [] => True
      | y :: _ => x <> y
      end /\ no_adjacent_repeat t
  end.

(** The last element of a list, if any. *)
Fixpoint last_number (l : list jsstring) : option jsstring :=
  match l with
  | [] => None
  | x :: t =>
      match t with
      | [] => Some x
      | _ :: _ => last_number t
      end
  end.

(** What a run keeps true of the console: the reported numbers never
    repeat side by side, and the last one is that of the current
    entry. *)
Definition reports_consistent (st : State) : Prop :=
  no_adjacent_repeat (updated_numbers (console st)) /\
  last_number (updated_numbers (console st)) =
  option_map Number (currentEntry st).

(** [tessedit_char_whitelist], the characters [initTesseract] allows the
    worker to output. *)
Definition char_whitelist : jsstring :=
  str "ABCDEFGHIJKLMNOPQRSTUVWXYZ0123456789-".

End Observe.

Import Observe.

(* ------------------------------------------------------------------ *)
(** ** Drawing *)

Module Render.

(** The arguments of [ctx.drawImage(frame, sx, sy, sw, sh, dx, dy, dw,
    dh)]: a source rectangle and a destination rectangle. *)
Record DrawImage : Type := mkDrawImage {
  src : Rect;
  dx : Q; dy : Q; dw : Q; dh : Q
}.

(** The [drawImage] call of [drawFrame]. *)
Definition drawFrame (canvas : Canvas) (frame : Frame) : DrawImage :=
  let crop := computeCoverCrop (width frame) (height frame)
                               (canvas_width canvas) (canvas_height canvas) in
  {| src := crop; dx := 0; dy := 0;
     dw := canvas_width canvas; dh := canvas_height canvas |}.

End Render.

(* ------------------------------------------------------------------ *)
(** ** Pixels *)

Module Pixels.

(** [preprocessOCR] on the bytes of the image data, four per pixel.
    [stored r g b] stands for the byte the clamped array keeps when it
    is assigned [r * 0.299 + g * 0.587 + b * 0.114], a floating point
    value rounded and clamped on assignment.  A last, incomplete pixel
    (none occurs in image data) reads [undefined] for its missing
    bytes: with two or more missing the sum is NaN, stored as 0. *)
Fixpoint preprocessOCR (stored : N -> N -> N -> N) (d : list N) : list N :=
  match d with
  | r :: g :: b :: a :: rest =>
      let v := stored r g b in
      v :: v :: v :: a :: preprocessOCR stored rest
  | [r; g; b] => let v := stored r g b in [v; v; v]
  | [_; _] => [0%N; 0%N]
  | [_] => [0%N]
  | [] => []
  end.

End Pixels.

(* ------------------------------------------------------------------ *)
(** ** Video sources *)

Module Devices.

(** What [enumerateDevices] reports of a device. *)
Record MediaDeviceInfo : Type := mkDevice {
  kind : jsstring;
  deviceId : jsstring;
  label : jsstring
}.

(** An [option] element of the select box. *)
Record OptionElement : Type := mkOption {
  value : jsstring;
  text : jsstring
}.

(** The decimal digits of a count, as a template literal prints it. *)
Definition toString (n : nat) : jsstring :=
  str (NilEmpty.string_of_uint (Nat.to_uint n)).

(** [device.label || `Camera ${i + 1}`]: the empty label is falsy. *)
Definition option_text (device : MediaDeviceInfo) (i : nat) : jsstring :=
  match label device with
  | [] => str "Camera " ++ toString (i + 1)
  | _ :: _ => label device
  end.

(** [cams.forEach((device, i) => ...)] from index [i] on: the options
    appended, in order. *)
Fixpoint append_options (i : nat) (cams : list MediaDeviceInfo)
  : list OptionElement :=
  match cams with
  | [] => []
  | device :: rest =>
      {| value := deviceId device; text := option_text device i |}
      :: append_options (S i) rest
  end.

(** [populateVideoSources]: the options of the select box afterwards,
    given its options before and the devices enumerated. *)
Definition populateVideoSources (devices : list MediaDeviceInfo)
           (select : list OptionElement) : list OptionElement :=
  let select := @nil OptionElement in
  let cams := filter (fun d => str_eqb (kind d) (str "videoinput")) devices in
  select ++ append_options 0 cams.

End Devices.

(* ------------------------------------------------------------------ *)
(** ** Sample data *)

Module Samples.

(** Two catalog entries whose numbers are distinct, one a leading part
    of the other. *)
Definition entry_AB1 : HotWheelsEntry :=
  mkEntry (str "AB1") (str "First") (str "1968") (str "Red").

Definition entry_AB12 : HotWheelsEntry :=
  mkEntry (str "AB12") (str "Second") (str "1969") (str "Blue").

(** An entry whose number is the empty string. *)
Definition entry_blank : HotWheelsEntry :=
  mkEntry [] (str "Unnumbered") (str "1970") (str "Green").

End Samples.

Import Samples.

(* ================================================================== *)
(** * Properties *)

(* ------------------------------------------------------------------ *)
(** ** Numbers *)

Lemma Qltb_lt (a b : Q) : Qltb a b = true <-> a < b.
Proof. unfold Qltb, Qlt. apply Z.ltb_lt. Qed.

Lemma Qltb_ge (a b : Q) : Qltb a b = false <-> b <= a.
Proof. unfold Qltb, Qle. rewrite Z.ltb_ge. reflexivity. Qed.

Lemma Qgtb_gt (a b : Q) : Qgtb a b = true <-> b < a.
Proof. apply Qltb_lt. Qed.

Lemma Qgtb_le (a b : Q) : Qgtb a b = false <-> a <= b.
Proof. apply Qltb_ge. Qed.

(* ------------------------------------------------------------------ *)
(** ** Geometry: properties *)

Section CoverCrop.

Variables srcW srcH dstW dstH : Q.
Hypothesis srcW_pos : 0 < srcW.
Hypothesis srcH_pos : 0 < srcH.
Hypothesis dstW_pos : 0 < dstW.
Hypothesis dstH_pos : 0 < dstH.

Lemma ratio_pos (a b : Q) : 0 < a -> 0 < b -> 0 < a / b.
Proof.
  intros Ha Hb. unfold Qdiv. apply Qmult_lt_0_compat; [assumption|].
  apply Qinv_lt_0_compat; assumption.
Qed.

(** Cross-multiplied form of the comparison of the two ratios. *)
Lemma ratio_gt_cross : dstW / dstH < srcW / srcH <-> dstW * srcH < srcW * dstH.
Proof.
  split; intro H.
  - apply (Qmult_lt_r _ _ (srcH * dstH)) in H;
      [|apply Qmult_lt_0_compat; assumption].
    setoid_replace (dstW / dstH * (srcH * dstH)) with (dstW * srcH) in H
      by (field; lra).
    setoid_replace (srcW / srcH * (srcH * dstH)) with (srcW * dstH) in H
      by (field; lra).
    exact H.
  - apply (Qmult_lt_r _ _ (srcH * dstH));
      [apply Qmult_lt_0_compat; assumption|].
    setoid_replace (dstW / dstH * (srcH * dstH)) with (dstW * srcH)
      by (field; lra).
    setoid_replace (srcW / srcH * (srcH * dstH)) with (srcW * dstH)
      by (field; lra).
    exact H.
Qed.

Lemma ratio_le_cross : srcW / srcH <= dstW / dstH <-> srcW * dstH <= dstW * srcH.
Proof.
  split; intro H.
  - apply Qnot_lt_le. intro C. apply ratio_gt_cross in C. lra.
  - apply Qnot_lt_le. intro C. apply ratio_gt_cross in C. lra.
Qed.

(** The crop width of the first branch stays below the source width. *)
Lemma wide_branch_width :
  dstW / dstH < srcW / srcH -> srcH * (dstW / dstH) < srcW.
Proof.
  intro H. apply ratio_gt_cross in H.
  apply (Qmult_lt_r _ _ dstH); [assumption|].
  setoid_replace (srcH * (dstW / dstH) * dstH) with (dstW * srcH)
    by (field; lra).
  exact H.
Qed.

(** The crop height of the second branch stays within the source height. *)
Lemma tall_branch_height :
  srcW / srcH <= dstW / dstH -> srcW / (dstW / dstH) <= srcH.
Proof.
  intro H. apply ratio_le_cross in H.
  apply (Qmult_le_r _ _ dstW); [assumption|].
  setoid_replace (srcW / (dstW / dstH) * dstW) with (srcW * dstH)
    by (field; split; lra).
  lra.
Qed.

Lemma tall_branch_height_pos : 0 < srcW / (dstW / dstH).
Proof. apply ratio_pos; [assumption|]. apply ratio_pos; assumption. Qed.

End CoverCrop.

(** Closed comparisons of numbers, by evaluation. *)
Ltac qeval := first [reflexivity | apply Qle_bool_imp_le; reflexivity].

(** Halving, in the form linear arithmetic reads. *)
Ltac halves := unfold Qdiv; change (/ 2) with (1 # 2); fold Qdiv.

(** Where the cover crop lies, for positive dimensions. *)
Lemma cover_crop_bounds (srcW srcH dstW dstH : Q) :
  0 < srcW -> 0 < srcH -> 0 < dstW -> 0 < dstH ->
  let r := computeCoverCrop srcW srcH dstW dstH in
  0 <= sx r /\ 0 <= sy r /\
  sx r + sw r <= srcW /\ sy r + sh r <= srcH /\
  0 < sw r /\ 0 < sh r /\ sw r / sh r == dstW / dstH.
Proof.
  intros HsW HsH HdW HdH r. subst r.
  unfold computeCoverCrop.
  destruct (Qgtb (srcW / srcH) (dstW / dstH)) eqn:E; cbn [sx sy sw sh].
  - apply Qgtb_gt in E.
    pose proof (wide_branch_width srcW srcH dstW dstH HsH HdH E) as Hw.
    pose proof (ratio_pos dstW dstH HdW HdH) as Hr.
    assert (Hp : 0 < srcH * (dstW / dstH))
      by (apply Qmult_lt_0_compat; assumption).
    set (w := srcH * (dstW / dstH)) in *.
    repeat split.
    + halves. lra.
    + lra.
    + halves. lra.
    + lra.
    + exact Hp.
    + exact HsH.
    + subst w. field. split; lra.
  - apply Qgtb_le in E.
    pose proof (tall_branch_height srcW srcH dstW dstH HsH HdW HdH E) as Hh.
    pose proof (tall_branch_height_pos srcW dstW dstH HsW HdW HdH) as Hp.
    set (h := srcW / (dstW / dstH)) in *.
    repeat split.
    + lra.
    + halves. lra.
    + lra.
    + halves. lra.
    + exact HsW.
    + exact Hp.
    + subst h. field. repeat split; lra.
Qed.

(** C1. For positive [srcW], [srcH], [dstW], [dstH] the rectangle
    [computeCoverCrop] returns lies within the source: [0 <= sx],
    [0 <= sy], [sx + sw <= srcW], [sy + sh <= srcH]; and its aspect ratio
    [sw / sh] is [dstW / dstH] (its height being positive), in exact
    arithmetic. *)
Theorem computeCoverCrop_within_source :
  forall srcW srcH dstW dstH : Q,
    0 < srcW -> 0 < srcH -> 0 < dstW -> 0 < dstH ->
    let r := computeCoverCrop srcW srcH dstW dstH in
    0 <= sx r /\ 0 <= sy r /\
    sx r + sw r <= srcW /\ sy r + sh r <= srcH /\
    0 < sh r /\ sw r / sh r == dstW / dstH.
Proof.
  intros srcW srcH dstW dstH HsW HsH HdW HdH.
  pose proof (cover_crop_bounds srcW srcH dstW dstH HsW HsH HdW HdH) as H.
  cbv zeta in *. tauto.
Qed.

(** A square source shown in a wide view. *)
Lemma computeCoverCrop_within_source_witness :
  let r := computeCoverCrop 100 100 200 100 in
  0 <= sx r /\ 0 <= sy r /\
  sx r + sw r <= 100 /\ sy r + sh r <= 100 /\
  0 < sh r /\ sw r / sh r == 200 / 100.
Proof.
  apply (computeCoverCrop_within_source 100 100 200 100); reflexivity.
Defined.

(** The two worked cases: a square source in a wide view loses its top
    and bottom, a wide source in a square view loses its sides. *)
Example computeCoverCrop_square_in_wide :
  Rect_eq (computeCoverCrop 100 100 200 100)
          {| sx := 0; sy := 25; sw := 100; sh := 50 |}.
Proof. repeat split. Qed.

Example computeCoverCrop_wide_in_square :
  Rect_eq (computeCoverCrop 200 100 100 100)
          {| sx := 50; sy := 0; sw := 100; sh := 100 |}.
Proof. repeat split. Qed.

(** C6. For positive dimensions [computeCoverCrop] follows the case
    split: when [srcW / srcH > dstW / dstH] it returns [sh = srcH],
    [sw = srcH * (dstW / dstH)], [sx = (srcW - sw) / 2], [sy = 0];
    otherwise, equal ratios included, it returns [sw = srcW],
    [sh = srcW / (dstW / dstH)], [sx = 0], [sy = (srcH - sh) / 2]. *)
Theorem computeCoverCrop_case_split :
  forall srcW srcH dstW dstH : Q,
    0 < srcW -> 0 < srcH -> 0 < dstW -> 0 < dstH ->
    (dstW / dstH < srcW / srcH ->
     computeCoverCrop srcW srcH dstW dstH =
     {| sx := (srcW - srcH * (dstW / dstH)) / 2; sy := 0;
        sw := srcH * (dstW / dstH); sh := srcH |}) /\
    (srcW / srcH <= dstW / dstH ->
     computeCoverCrop srcW srcH dstW dstH =
     {| sx := 0; sy := (srcH - srcW / (dstW / dstH)) / 2;
        sw := srcW; sh := srcW / (dstW / dstH) |}) /\
    (srcW / srcH == dstW / dstH ->
     computeCoverCrop srcW srcH dstW dstH =
     {| sx := 0; sy := (srcH - srcW / (dstW / dstH)) / 2;
        sw := srcW; sh := srcW / (dstW / dstH) |}).
Proof.
  intros srcW srcH dstW dstH _ _ _ _.
  assert (Helse : srcW / srcH <= dstW / dstH ->
     computeCoverCrop srcW srcH dstW dstH =
     {| sx := 0; sy := (srcH - srcW / (dstW / dstH)) / 2;
        sw := srcW; sh := srcW / (dstW / dstH) |}).
  { intro H. apply Qgtb_le in H. unfold computeCoverCrop.
    rewrite H. reflexivity. }
  split; [|split].
  - intro H. apply Qgtb_gt in H. unfold computeCoverCrop.
    rewrite H. reflexivity.
  - exact Helse.
  - intro H. apply Helse. rewrite H. apply Qle_refl.
Qed.

Lemma computeCoverCrop_case_split_witness :
  computeCoverCrop 200 100 100 100 =
    {| sx := (200 - 100 * (100 / 100)) / 2; sy := 0;
       sw := 100 * (100 / 100); sh := 100 |} /\
  computeCoverCrop 100 100 200 100 =
    {| sx := 0; sy := (100 - 100 / (200 / 100)) / 2;
       sw := 100; sh := 100 / (200 / 100) |} /\
  computeCoverCrop 300 200 300 200 =
    {| sx := 0; sy := (200 - 300 / (300 / 200)) / 2;
       sw := 300; sh := 300 / (300 / 200) |}.
Proof.
  split; [|split].
  - pose proof (computeCoverCrop_case_split 200 100 100 100
                  eq_refl eq_refl eq_refl eq_refl) as (H & _).
    apply H. reflexivity.
  - pose proof (computeCoverCrop_case_split 100 100 200 100
                  eq_refl eq_refl eq_refl eq_refl) as (_ & H & _).
    apply H. qeval.
  - pose proof (computeCoverCrop_case_split 300 200 300 200
                  eq_refl eq_refl eq_refl eq_refl) as (_ & _ & H).
    apply H. reflexivity.
Defined.

(** C7. For a frame and a canvas of positive dimensions the OCR crop is
    the guide box (100 by 40, centred in the canvas) carried into source
    space through the display crop: with [displayCrop] the cover crop of
    the frame for the canvas, [scaleX = displayCrop.sw / canvasW] and
    [scaleY = displayCrop.sh / canvasH], it is
    [{sx: displayCrop.sx + ((canvasW - 100) / 2) * scaleX,
      sy: displayCrop.sy + ((canvasH - 40) / 2) * scaleY,
      sw: 100 * scaleX, sh: 40 * scaleY}]. *)
Theorem computeOCRCrop_guide_box_in_source :
  forall (frame : Frame) (canvas : Canvas),
    0 < width frame -> 0 < height frame ->
    0 < canvas_width canvas -> 0 < canvas_height canvas ->
    let canvasW := canvas_width canvas in
    let canvasH := canvas_height canvas in
    let displayCrop :=
      computeCoverCrop (width frame) (height frame) canvasW canvasH in
    let scaleX := sw displayCrop / canvasW in
    let scaleY := sh displayCrop / canvasH in
    computeOCRCrop canvas frame =
      {| sx := sx displayCrop + ((canvasW - 100) / 2) * scaleX;
         sy := sy displayCrop + ((canvasH - 40) / 2) * scaleY;
         sw := 100 * scaleX;
         sh := 40 * scaleY |} /\
    computeOCRCrop canvas frame =
      map_to_source displayCrop canvas (guideBox canvas) /\
    sw (guideBox canvas) = 100 /\ sh (guideBox canvas) = 40 /\
    sx (guideBox canvas) + sw (guideBox canvas) + sx (guideBox canvas)
      == canvasW /\
    sy (guideBox canvas) + sh (guideBox canvas) + sy (guideBox canvas)
      == canvasH.
Proof.
  intros frame canvas _ _ _ _ canvasW canvasH displayCrop scaleX scaleY.
  repeat split.
  - cbn [guideBox sx sw]. unfold GUIDE_WIDTH. subst canvasW. halves. lra.
  - cbn [guideBox sy sh]. unfold GUIDE_HEIGHT. subst canvasH. halves. lra.
Qed.

Lemma computeOCRCrop_guide_box_in_source_witness :
  Rect_eq (computeOCRCrop (mkCanvas 640 480) (mkFrame 1280 720))
          {| sx := 565; sy := 330; sw := 150; sh := 60 |}.
Proof.
  pose proof (computeOCRCrop_guide_box_in_source
                (mkFrame 1280 720) (mkCanvas 640 480)
                eq_refl eq_refl eq_refl eq_refl) as (H & _).
  rewrite H. repeat split.
Defined.

(** The OCR crop lies where the guide box lies within the display crop. *)
Lemma ocr_crop_bounds (frame : Frame) (canvas : Canvas) :
  0 < width frame -> 0 < height frame ->
  100 <= canvas_width canvas -> 40 <= canvas_height canvas ->
  let r := computeOCRCrop canvas frame in
  0 <= sx r /\ 0 <= sy r /\
  sx r + sw r <= width frame /\ sy r + sh r <= height frame.
Proof.
  intros Hw Hh Hcw Hch r. subst r.
  assert (Hcw0 : 0 < canvas_width canvas) by lra.
  assert (Hch0 : 0 < canvas_height canvas) by lra.
  pose proof (cover_crop_bounds (width frame) (height frame)
                (canvas_width canvas) (canvas_height canvas)
                Hw Hh Hcw0 Hch0) as B.
  cbv zeta in B.
  destruct B as (Bx & By & Bxw & Byh & Bw & Bh & _).
  unfold computeOCRCrop. cbn [sx sy sw sh].
  set (d := computeCoverCrop (width frame) (height frame)
              (canvas_width canvas) (canvas_height canvas)) in *.
  unfold GUIDE_WIDTH, GUIDE_HEIGHT.
  pose proof (ratio_pos (sw d) (canvas_width canvas) Bw Hcw0) as HsX.
  pose proof (ratio_pos (sh d) (canvas_height canvas) Bh Hch0) as HsY.
  assert (EX : sw d / canvas_width canvas * canvas_width canvas == sw d)
    by (field; lra).
  assert (EY : sh d / canvas_height canvas * canvas_height canvas == sh d)
    by (field; lra).
  set (scaleX := sw d / canvas_width canvas) in *.
  set (scaleY := sh d / canvas_height canvas) in *.
  halves.
  repeat split; nra.
Qed.

(** C9. For a frame of positive width and height and a canvas at least
    100 wide and 40 high, the rectangle [computeOCRCrop] returns lies
    within the frame: [sx >= 0], [sy >= 0], [sx + sw <= frame.width],
    [sy + sh <= frame.height], in exact arithmetic. *)
Theorem computeOCRCrop_within_frame :
  forall (frame : Frame) (canvas : Canvas),
    0 < width frame -> 0 < height frame ->
    100 <= canvas_width canvas -> 40 <= canvas_height canvas ->
    let r := computeOCRCrop canvas frame in
    0 <= sx r /\ 0 <= sy r /\
    sx r + sw r <= width frame /\ sy r + sh r <= height frame.
Proof. exact ocr_crop_bounds. Qed.

Lemma computeOCRCrop_within_frame_witness :
  let r := computeOCRCrop (mkCanvas 100 40) (mkFrame 1280 720) in
  0 <= sx r /\ 0 <= sy r /\ sx r + sw r <= 1280 /\ sy r + sh r <= 720.
Proof.
  apply (computeOCRCrop_within_frame (mkFrame 1280 720) (mkCanvas 100 40));
    cbn; qeval.
Defined.

(** C3, as stated, fails: neither geometry function checks its
    dimensions.  With a negative source width [computeCoverCrop] returns
    the rectangle [{sx: 0, sy: 100, sw: -100, sh: -100}], and
    [computeOCRCrop] returns a rectangle as well. *)
Lemma geometry_InvalidDimension_counterexample :
  ~ (forall srcW srcH dstW dstH : Q,
        nonpositive_dimension srcW srcH dstW dstH ->
        call_computeCoverCrop srcW srcH dstW dstH = Throws InvalidDimension) /\
  ~ (forall (canvas : Canvas) (frame : Frame),
        nonpositive_dimension (width frame) (height frame)
                              (canvas_width canvas) (canvas_height canvas) ->
        call_computeOCRCrop canvas frame = Throws InvalidDimension) /\
  (exists r, call_computeCoverCrop (-100) 100 100 100 = Returns r /\
             Rect_eq r {| sx := 0; sy := 100; sw := -100; sh := -100 |}).
Proof.
  assert (N : nonpositive_dimension (-100) 100 100 100)
    by (left; qeval).
  split; [|split].
  - intro H. specialize (H (-100) 100 100 100 N). discriminate H.
  - intro H. specialize (H (mkCanvas 100 100) (mkFrame (-100) 100) N).
    discriminate H.
  - eexists. split; [reflexivity|]. repeat split.
Qed.

(** C3, amended. The geometry functions do not validate their
    dimensions and raise no [InvalidDimension]: called with a zero or
    negative width or height (no divisor being zero) they return the
    rectangle the same arithmetic gives, for [computeCoverCrop] the one
    of its case split, whose aspect ratio is still [dstW / dstH] when
    [srcW] is not zero, and for [computeOCRCrop] the guide box carried
    through that rectangle. *)
Theorem geometry_no_dimension_check :
  (forall srcW srcH dstW dstH : Q,
      nonpositive_dimension srcW srcH dstW dstH ->
      ~ srcH == 0 -> ~ dstW == 0 -> ~ dstH == 0 ->
      exists r : Rect,
        call_computeCoverCrop srcW srcH dstW dstH = Returns r /\
        r = (if Qgtb (srcW / srcH) (dstW / dstH)
             then {| sx := (srcW - srcH * (dstW / dstH)) / 2; sy := 0;
                     sw := srcH * (dstW / dstH); sh := srcH |}
             else {| sx := 0; sy := (srcH - srcW / (dstW / dstH)) / 2;
                     sw := srcW; sh := srcW / (dstW / dstH) |}) /\
        (~ srcW == 0 -> sw r / sh r == dstW / dstH)) /\
  (forall (canvas : Canvas) (frame : Frame),
      nonpositive_dimension (width frame) (height frame)
                            (canvas_width canvas) (canvas_height canvas) ->
      ~ height frame == 0 ->
      ~ canvas_width canvas == 0 -> ~ canvas_height canvas == 0 ->
      call_computeOCRCrop canvas frame =
      Returns (map_to_source
                 (computeCoverCrop (width frame) (height frame)
                                   (canvas_width canvas) (canvas_height canvas))
                 canvas (guideBox canvas))).
Proof.
  split.
  - intros srcW srcH dstW dstH _ HsH HdW HdH.
    exists (computeCoverCrop srcW srcH dstW dstH).
    split; [reflexivity|]. split; [reflexivity|].
    intro HsW. unfold computeCoverCrop.
    destruct (Qgtb (srcW / srcH) (dstW / dstH)); cbn [sw sh].
    + field. split; assumption.
    + field. repeat split; assumption.
  - intros canvas frame _ _ _ _. reflexivity.
Qed.

Lemma geometry_no_dimension_check_witness :
  (exists r : Rect,
      call_computeCoverCrop (-100) 100 100 100 = Returns r /\
      sw r / sh r == 100 / 100) /\
  call_computeOCRCrop (mkCanvas 200 100) (mkFrame (-100) 100) =
  Returns (map_to_source (computeCoverCrop (-100) 100 200 100)
                         (mkCanvas 200 100) (guideBox (mkCanvas 200 100))).
Proof.
  assert (N : forall a b c : Q, nonpositive_dimension (-100) a b c)
    by (intros; left; qeval).
  destruct geometry_no_dimension_check as [Hc Ho]. split.
  - destruct (Hc (-100) 100 100 100 (N _ _ _)) as (r & Hr & _ & Ha);
      try discriminate.
    exists r. split; [exact Hr|]. apply Ha. discriminate.
  - apply (Ho (mkCanvas 200 100) (mkFrame (-100) 100) (N _ _ _));
      discriminate.
Defined.

(* ------------------------------------------------------------------ *)
(** ** Strings *)

Section StringFacts.

Local Open Scope N_scope.

Lemma str_eqb_eq (a b : jsstring) : str_eqb a b = true <-> a = b.
Proof.
  revert b. induction a as [|x a IH]; intros [|y b]; cbn; try easy.
  rewrite andb_true_iff, N.eqb_eq, IH. split.
  - intros [-> ->]. reflexivity.
  - intros [= -> ->]. split; reflexivity.
Qed.

Lemma str_eqb_refl (a : jsstring) : str_eqb a a = true.
Proof. apply str_eqb_eq. reflexivity. Qed.

Lemma startsWith_is_prefix (s p : jsstring) :
  startsWith s p = true <-> is_prefix p s.
Proof.
  revert s. induction p as [|y p IH]; intros s; cbn.
  - split; [intros _; exists s; reflexivity | reflexivity].
  - destruct s as [|x s].
    + split; [discriminate | intros [t Ht]; discriminate Ht].
    + rewrite andb_true_iff, N.eqb_eq, IH. split.
      * intros [-> [t ->]]. exists t. reflexivity.
      * intros [t [= -> ->]]. split; [reflexivity | exists t; reflexivity].
Qed.

Lemma startsWith_empty (s : jsstring) : startsWith s [] = true.
Proof. destruct s; reflexivity. Qed.

(** The first piece of a split is what precedes the first separator. *)
Lemma split_first_piece (sep : N) (a b : jsstring) :
  ~ In sep a -> nth 0 (split sep (a ++ sep :: b)) [] = a.
Proof.
  induction a as [|c a IH]; intros Hnot; cbn.
  - rewrite N.eqb_refl. reflexivity.
  - destruct (N.eqb_spec c sep) as [->|Hne].
    + exfalso. apply Hnot. left. reflexivity.
    + assert (Ha : ~ In sep a) by (intro; apply Hnot; right; assumption).
      specialize (IH Ha).
      destruct (split sep (a ++ sep :: b)) as [|piece pieces]; cbn in *.
      * subst a. reflexivity.
      * subst piece. reflexivity.
Qed.

End StringFacts.

(* ------------------------------------------------------------------ *)
(** ** Regular expressions: the matcher decides the language *)

Section RegExpFacts.

Local Open Scope N_scope.

Lemma lang_Void_inv (w : jsstring) : ~ lang Void w.
Proof. intro H. inversion H. Qed.

Lemma lang_Eps_inv (w : jsstring) : lang Eps w -> w = [].
Proof. intro H. inversion H. reflexivity. Qed.

Lemma lang_Chr_inv (c : N) (w : jsstring) : lang (Chr c) w -> w = [c].
Proof. intro H. inversion H. reflexivity. Qed.

Lemma lang_Class_inv (ranges : list (N * N)) (w : jsstring) :
  lang (Class ranges) w -> exists c, w = [c] /\ in_ranges c ranges = true.
Proof. intro H. inversion H; subst. eexists. split; [reflexivity|assumption]. Qed.

Lemma lang_Cat_inv (r s : regex) (w : jsstring) :
  lang (Cat r s) w -> exists u v, w = u ++ v /\ lang r u /\ lang s v.
Proof. intro H. inversion H; subst. eauto. Qed.

Lemma lang_Alt_inv (r s : regex) (w : jsstring) :
  lang (Alt r s) w -> lang r w \/ lang s w.
Proof. intro H. inversion H; subst; auto. Qed.

Lemma nullable_lang (r : regex) : nullable r = true <-> lang r [].
Proof.
  induction r as [| |c|ranges|r IHr s IHs|r IHr s IHs]; cbn.
  - split; [discriminate | intro H; inversion H].
  - split; [intros _; constructor | reflexivity].
  - split; [discriminate | intro H; inversion H].
  - split; [discriminate | intro H; inversion H].
  - rewrite andb_true_iff, IHr, IHs. split.
    + intros [Hr Hs]. apply (lang_Cat r s [] [] Hr Hs).
    + intro H. apply lang_Cat_inv in H. destruct H as (u & v & E & Hu & Hv).
      symmetry in E. apply app_eq_nil in E. destruct E; subst. auto.
  - rewrite orb_true_iff, IHr, IHs. split.
    + intros [H|H]; [apply lang_AltL | apply lang_AltR]; assumption.
    + apply lang_Alt_inv.
Qed.

Lemma deriv_lang (r : regex) (c : N) (w : jsstring) :
  lang (deriv c r) w <-> lang r (c :: w).
Proof.
  revert w.
  induction r as [| |d|ranges|r IHr s IHs|r IHr s IHs]; intro w; cbn.
  - split; intro H; inversion H.
  - split; intro H; inversion H.
  - destruct (N.eqb_spec c d) as [->|Hne]; split; intro H.
    + apply lang_Eps_inv in H. subst. constructor.
    + apply lang_Chr_inv in H. injection H as ->. constructor.
    + inversion H.
    + apply lang_Chr_inv in H. injection H as -> _. contradiction.
  - destruct (in_ranges c ranges) eqn:E; split; intro H.
    + apply lang_Eps_inv in H. subst. constructor. assumption.
    + apply lang_Class_inv in H. destruct H as (c' & [= -> ->] & _).
      constructor.
    + inversion H.
    + apply lang_Class_inv in H. destruct H as (c' & [= -> ->] & Hc).
      congruence.
  - assert (Hcat : forall u v, lang r (c :: u) -> lang s v ->
                               lang (Cat r s) (c :: u ++ v)).
    { intros u v Hu Hv. apply (lang_Cat r s (c :: u) v Hu Hv). }
    destruct (nullable r) eqn:Nr; split; intro H.
    + apply lang_Alt_inv in H. destruct H as [H|H].
      * apply lang_Cat_inv in H. destruct H as (u & v & -> & Hu & Hv).
        apply Hcat; [apply IHr|]; assumption.
      * apply IHs in H. apply nullable_lang in Nr.
        apply (lang_Cat r s [] (c :: w) Nr H).
    + apply lang_Cat_inv in H. destruct H as (u & v & E & Hu & Hv).
      destruct u as [|x u]; cbn in E.
      * subst v. apply lang_AltR. apply IHs. assumption.
      * injection E as <- ->. apply lang_AltL.
        apply lang_Cat; [apply IHr|]; assumption.
    + apply lang_Cat_inv in H. destruct H as (u & v & -> & Hu & Hv).
      apply Hcat; [apply IHr|]; assumption.
    + apply lang_Cat_inv in H. destruct H as (u & v & E & Hu & Hv).
      destruct u as [|x u]; cbn in E.
      * apply nullable_lang in Hu. congruence.
      * injection E as <- ->. apply lang_Cat; [apply IHr|]; assumption.
  - split; intro H; apply lang_Alt_inv in H; destruct H as [H|H].
    + apply lang_AltL, IHr, H.
    + apply lang_AltR, IHs, H.
    + apply lang_AltL, IHr, H.
    + apply lang_AltR, IHs, H.
Qed.

(** The matcher accepts exactly the strings of the pattern. *)
Lemma matches_lang (r : regex) (w : jsstring) :
  matches r w = true <-> lang r w.
Proof.
  revert r. induction w as [|c w IH]; intro r; cbn.
  - apply nullable_lang.
  - rewrite IH. apply deriv_lang.
Qed.

End RegExpFacts.

(* ------------------------------------------------------------------ *)
(** ** The structural pattern *)

Section PatternFacts.

Variable ranges : list (N * N).

Let in_class (w : jsstring) : Prop :=
  Forall (fun c => in_ranges c ranges = true) w.

Lemma lang_exactly (n : nat) (w : jsstring) :
  lang (exactly n (Class ranges)) w <-> List.length w = n /\ in_class w.
Proof.
  revert w. induction n as [|n IH]; intro w; cbn.
  - split.
    + intro H. apply lang_Eps_inv in H. subst. split; [reflexivity|constructor].
    + intros [H _]. apply length_zero_iff_nil in H. subst. constructor.
  - split.
    + intro H. apply lang_Cat_inv in H. destruct H as (u & v & -> & Hu & Hv).
      apply lang_Class_inv in Hu. destruct Hu as (c & -> & Hc).
      apply IH in Hv. destruct Hv as [Hl Hf]. cbn. split.
      * congruence.
      * constructor; assumption.
    + intros [Hl Hf]. destruct w as [|c w]; [discriminate|].
      inversion Hf; subst. injection Hl as Hl.
      apply (lang_Cat (Class ranges) _ [c] w).
      * constructor. assumption.
      * apply IH. split; assumption.
Qed.

Lemma lang_at_most (n : nat) (w : jsstring) :
  lang (at_most n (Class ranges)) w <-> (List.length w <= n)%nat /\ in_class w.
Proof.
  revert w. induction n as [|n IH]; intro w; cbn.
  - split.
    + intro H. apply lang_Eps_inv in H. subst. split; [reflexivity|constructor].
    + intros [H _]. destruct w; [constructor | cbn in H; lia].
  - split.
    + intro H. apply lang_Alt_inv in H. destruct H as [H|H].
      * apply lang_Eps_inv in H. subst. split; [cbn; lia|constructor].
      * apply lang_Cat_inv in H. destruct H as (u & v & -> & Hu & Hv).
        apply lang_Class_inv in Hu. destruct Hu as (c & -> & Hc).
        apply IH in Hv. destruct Hv as [Hl Hf]. cbn. split.
        -- lia.
        -- constructor; assumption.
    + intros [Hl Hf]. destruct w as [|c w].
      * apply lang_AltL. constructor.
      * inversion Hf; subst. cbn in Hl. apply lang_AltR.
        apply (lang_Cat (Class ranges) _ [c] w).
        -- constructor. assumption.
        -- apply IH. split; [lia|assumption].
Qed.

Lemma lang_Repeat (lo hi : nat) (w : jsstring) :
  (lo <= hi)%nat ->
  lang (Repeat lo hi (Class ranges)) w <->
  (lo <= List.length w <= hi)%nat /\ in_class w.
Proof.
  intro Hle. unfold Repeat. split.
  - intro H. apply lang_Cat_inv in H. destruct H as (u & v & -> & Hu & Hv).
    apply lang_exactly in Hu. apply lang_at_most in Hv.
    destruct Hu as [Hlu Hfu], Hv as [Hlv Hfv].
    rewrite length_app. split; [lia|].
    apply Forall_app. split; assumption.
  - intros [Hl Hf].
    assert (Hf' := Hf). rewrite <- (firstn_skipn lo w) in Hf'.
    apply Forall_app in Hf'. destruct Hf' as [Hf1 Hf2].
    rewrite <- (firstn_skipn lo w).
    apply lang_Cat.
    + apply lang_exactly. split; [|exact Hf1].
      rewrite length_firstn. lia.
    + apply lang_at_most. split; [|exact Hf2].
      rewrite length_skipn. lia.
Qed.

End PatternFacts.

Lemma in_code_class (c : N) : in_ranges c [(code "A", code "Z"); (code "0", code "9")] = isCodeChar c.
Proof. unfold isCodeChar. cbn [in_ranges]. rewrite orb_false_r. reflexivity. Qed.

Lemma lang_code_segment (w : jsstring) :
  lang (Repeat 3 5 code_class) w <-> code_segment w.
Proof.
  unfold code_class, code_segment. rewrite lang_Repeat by lia.
  split; intros [Hl Hf]; (split; [exact Hl|]);
    eapply Forall_impl; try exact Hf; intros c Hc; cbv beta in *.
  - rewrite <- in_code_class. exact Hc.
  - rewrite in_code_class. exact Hc.
Qed.

(** [CODE_REGEX] accepts a text exactly when it has the structural
    shape: two code segments joined by a hyphen. *)
Lemma CODE_REGEX_structural (text : jsstring) :
  test CODE_REGEX text = true <-> exists a b, structural text a b.
Proof.
  unfold test. rewrite matches_lang. unfold CODE_REGEX, structural. split.
  - intro H. apply lang_Cat_inv in H. destruct H as (a & v & -> & Ha & Hv).
    apply lang_Cat_inv in Hv. destruct Hv as (h & b & -> & Hh & Hb).
    apply lang_Chr_inv in Hh. subst h.
    exists a, b. split; [reflexivity|].
    split; apply lang_code_segment; assumption.
  - intros (a & b & -> & Ha & Hb).
    apply lang_Cat; [apply lang_code_segment; exact Ha|].
    apply (lang_Cat _ _ [code "-"] b); [constructor|].
    apply lang_code_segment; exact Hb.
Qed.

(** A code segment holds no hyphen. *)
Lemma code_segment_no_hyphen (a : jsstring) :
  code_segment a -> ~ In (code "-") a.
Proof.
  intros [_ Hf] Hin. rewrite Forall_forall in Hf.
  specialize (Hf _ Hin). discriminate Hf.
Qed.

(* ------------------------------------------------------------------ *)
(** ** Catalog lookup *)

Section LookupFacts.

Variable f : HotWheelsEntry -> bool.

(** [Array.prototype.find] returns the first element, in order, that
    passes the test. *)
Lemma find_first (l : list HotWheelsEntry) (e : HotWheelsEntry) :
  find f l = Some e <->
  exists before after,
    l = before ++ e :: after /\ f e = true /\
    forall x, In x before -> f x = false.
Proof.
  induction l as [|y l IH]; cbn.
  - split; [discriminate|]. intros (before & after & E & _).
    destruct before; discriminate E.
  - destruct (f y) eqn:Fy; split.
    + intros [= ->]. exists [], l. repeat split; [assumption|]. intros x [].
    + intros (before & after & E & Fe & Hb). destruct before as [|z before].
      * injection E as -> _. reflexivity.
      * injection E as <- _. rewrite (Hb y) in Fy by (left; reflexivity).
        discriminate Fy.
    + intro H. apply IH in H. destruct H as (before & after & -> & Fe & Hb).
      exists (y :: before), after. repeat split; [assumption|].
      intros x [<-|Hx]; [assumption | apply Hb; assumption].
    + intros (before & after & E & Fe & Hb). destruct before as [|z before].
      * injection E as -> _. congruence.
      * injection E as -> ->. apply IH. exists before, after.
        repeat split; [assumption|]. intros x Hx. apply Hb. right. assumption.
Qed.

Lemma find_nothing (l : list HotWheelsEntry) :
  find f l = None <-> forall x, In x l -> f x = false.
Proof.
  split.
  - intros H x Hx. apply (find_none f l H x Hx).
  - intro H. induction l as [|y l IH]; cbn; [reflexivity|].
    rewrite (H y) by (left; reflexivity).
    apply IH. intros x Hx. apply H. right. assumption.
Qed.

End LookupFacts.

(** On a text of the structural shape, resolution is the lookup of the
    segment before the hyphen. *)
Lemma resolve_structural (rawText a b : jsstring) (catalog : list HotWheelsEntry) :
  structural (trim rawText) a b ->
  resolve rawText catalog = find (fun e => startsWith a (Number e)) catalog.
Proof.
  intro S. unfold resolve.
  assert (T : test CODE_REGEX (trim rawText) = true)
    by (apply CODE_REGEX_structural; exists a, b; exact S).
  rewrite T. cbn [negb].
  destruct S as (E & Ha & _). rewrite E.
  rewrite split_first_piece by (apply code_segment_no_hyphen; exact Ha).
  reflexivity.
Qed.

Lemma resolve_not_structural (rawText : jsstring) (catalog : list HotWheelsEntry) :
  test CODE_REGEX (trim rawText) = false -> resolve rawText catalog = None.
Proof. intro T. unfold resolve. rewrite T. reflexivity. Qed.

Lemma resolve_Some_first (rawText a b : jsstring)
      (catalog : list HotWheelsEntry) (e : HotWheelsEntry) :
  structural (trim rawText) a b ->
  resolve rawText catalog = Some e <->
  first_match (fun x => is_prefix (Number x) a) catalog e.
Proof.
  intro S. rewrite (resolve_structural _ _ _ _ S), find_first.
  unfold first_match. split.
  - intros (before & after & E & Fe & Hb). exists before, after.
    split; [exact E|]. split; [apply startsWith_is_prefix; exact Fe|].
    intros x Hx Px. apply startsWith_is_prefix in Px.
    rewrite (Hb x Hx) in Px. discriminate Px.
  - intros (before & after & E & Pe & Hb). exists before, after.
    split; [exact E|]. split; [apply startsWith_is_prefix; exact Pe|].
    intros x Hx. destruct (startsWith a (Number x)) eqn:Sx; [|reflexivity].
    exfalso. apply (Hb x Hx). apply startsWith_is_prefix. exact Sx.
Qed.

Lemma resolve_None_iff (rawText a b : jsstring) (catalog : list HotWheelsEntry) :
  structural (trim rawText) a b ->
  resolve rawText catalog = None <->
  forall x, In x catalog -> ~ is_prefix (Number x) a.
Proof.
  intro S. rewrite (resolve_structural _ _ _ _ S), find_nothing. split.
  - intros H x Hx Px. apply startsWith_is_prefix in Px.
    rewrite (H x Hx) in Px. discriminate Px.
  - intros H x Hx. destruct (startsWith a (Number x)) eqn:Sx; [|reflexivity].
    exfalso. apply (H x Hx). apply startsWith_is_prefix. exact Sx.
Qed.

(** The text [AB12-XY99] has the structural shape. *)
Lemma AB12_XY99_structural :
  structural (trim (str "AB12-XY99")) (str "AB12") (str "XY99").
Proof.
  split; [reflexivity|].
  split; (split; [cbn; lia | repeat constructor]).
Qed.

(** C2, as stated, fails in its first example: a catalog may hold the
    entry numbered [AB12] behind an entry whose number is a shorter
    leading part of [AB12]; the lookup then yields the earlier entry. *)
Lemma resolve_AB12_counterexample :
  In entry_AB12 [entry_AB1; entry_AB12] /\
  Number entry_AB12 = str "AB12" /\
  resolve (str "AB12-XY99") [entry_AB1; entry_AB12] = Some entry_AB1 /\
  resolve (str "AB12-XY99") [entry_AB1; entry_AB12] <> Some entry_AB12.
Proof.
  split; [right; left; reflexivity|].
  split; [reflexivity|].
  split; [reflexivity|]. discriminate.
Qed.

(** C2, amended. For every catalog and every [rawText]: when the
    trimmed text has the structural shape (three to five upper-case
    letters or digits, a hyphen, three to five more), resolution returns
    the first entry in load order whose [Number] is a leading part of
    the segment before the first hyphen, and none exactly when no
    entry's [Number] is; when the trimmed text has not that shape the
    result is none.  [AB12-XY99] against a catalog holding an entry
    numbered [AB12] always yields a match, that entry itself when no
    earlier entry's [Number] is a leading part of [AB12];
    [ab12-xy99] and [A1-B2] yield none. *)
Theorem resolve_first_prefix_match :
  forall (catalog : list HotWheelsEntry) (rawText : jsstring),
    (forall a b : jsstring,
        structural (trim rawText) a b ->
        ~ In (code "-") a /\
        (forall e, resolve rawText catalog = Some e <->
                   first_match (fun x => is_prefix (Number x) a) catalog e) /\
        (resolve rawText catalog = None <->
         forall x, In x catalog -> ~ is_prefix (Number x) a)) /\
    ((~ exists a b, structural (trim rawText) a b) ->
     resolve rawText catalog = None) /\
    (forall e, In e catalog -> Number e = str "AB12" ->
               exists m, resolve (str "AB12-XY99") catalog = Some m /\
                         is_prefix (Number m) (str "AB12")) /\
    (forall before e after,
        catalog = before ++ e :: after -> Number e = str "AB12" ->
        (forall x, In x before -> ~ is_prefix (Number x) (str "AB12")) ->
        resolve (str "AB12-XY99") catalog = Some e) /\
    resolve (str "ab12-xy99") catalog = None /\
    resolve (str "A1-B2") catalog = None.
Proof.
  intros catalog rawText.
  split; [|split; [|split; [|split; [|split]]]].
  - intros a b S. split; [|split].
    + apply code_segment_no_hyphen. destruct S as (_ & Ha & _). exact Ha.
    + intro e. apply (resolve_Some_first _ _ _ _ _ S).
    + apply (resolve_None_iff _ _ _ _ S).
  - intro N. apply resolve_not_structural.
    destruct (test CODE_REGEX (trim rawText)) eqn:T; [|reflexivity].
    exfalso. apply N. apply CODE_REGEX_structural. exact T.
  - intros e He Ne.
    destruct (resolve (str "AB12-XY99") catalog) as [m|] eqn:R.
    + exists m. split; [reflexivity|].
      apply (resolve_Some_first _ _ _ _ _ AB12_XY99_structural) in R.
      destruct R as (_ & _ & _ & Pm & _). exact Pm.
    + exfalso.
      apply (proj1 (resolve_None_iff _ _ _ _ AB12_XY99_structural) R e He).
      exists []. rewrite Ne, app_nil_r. reflexivity.
  - intros before e after E Ne Hb.
    apply (resolve_Some_first _ _ _ _ _ AB12_XY99_structural).
    exists before, after. split; [exact E|]. split; [|exact Hb].
    exists []. rewrite Ne, app_nil_r. reflexivity.
  - apply resolve_not_structural. reflexivity.
  - apply resolve_not_structural. reflexivity.
Qed.

Lemma resolve_first_prefix_match_witness :
  resolve (str " AB12-XY99 ") [entry_AB12; entry_AB1] = Some entry_AB12 /\
  resolve (str "AB12-XY99") [entry_AB12; entry_AB1] = Some entry_AB12 /\
  resolve (str "ZZ99-XY99") [entry_AB12; entry_AB1] = None.
Proof.
  pose proof (resolve_first_prefix_match [entry_AB12; entry_AB1]
                (str " AB12-XY99 ")) as (G & _ & _ & X & _).
  pose proof (resolve_first_prefix_match [entry_AB12; entry_AB1]
                (str "ZZ99-XY99")) as (Z & _).
  split; [|split].
  - apply (G (str "AB12") (str "XY99")).
    + split; [reflexivity|].
      split; (split; [cbn; lia | repeat constructor]).
    + exists [], [entry_AB1]. split; [reflexivity|].
      split; [exists []; reflexivity | intros x []].
  - apply (X [] entry_AB12 [entry_AB1]); [reflexivity | reflexivity |].
    intros x [].
  - apply (Z (str "ZZ99") (str "XY99")).
    + split; [reflexivity|].
      split; (split; [cbn; lia | repeat constructor]).
    + intros x [<-|[<-|[]]] [t Ht]; discriminate Ht.
Defined.

(** C10. If the catalog holds an entry whose [Number] is the empty
    string, every recognized text that passes structural validation
    resolves to a match. *)
Theorem resolve_empty_Number_always_matches :
  forall (catalog : list HotWheelsEntry) (rawText : jsstring) (e : HotWheelsEntry),
    In e catalog -> Number e = [] ->
    test CODE_REGEX (trim rawText) = true ->
    exists m, resolve rawText catalog = Some m /\ In m catalog.
Proof.
  intros catalog rawText e He Ne T.
  apply CODE_REGEX_structural in T. destruct T as (a & b & S).
  destruct (resolve rawText catalog) as [m|] eqn:R.
  - exists m. split; [reflexivity|].
    apply (resolve_Some_first _ _ _ _ _ S) in R.
    destruct R as (before & after & -> & _). apply in_elt.
  - exfalso. apply (proj1 (resolve_None_iff _ _ _ _ S) R e He).
    exists a. rewrite Ne. reflexivity.
Qed.

Lemma resolve_empty_Number_always_matches_witness :
  exists m, resolve (str "ZZ99-XY99") [entry_AB12; entry_blank] = Some m /\
            In m [entry_AB12; entry_blank].
Proof.
  apply (resolve_empty_Number_always_matches
           [entry_AB12; entry_blank] (str "ZZ99-XY99") entry_blank).
  - right. left. reflexivity.
  - reflexivity.
  - reflexivity.
Defined.

(* ------------------------------------------------------------------ *)
(** ** Recognition gate *)

Lemma shouldRun_iff (now last interval : Q) :
  shouldRun now last interval = true <-> interval <= now - last.
Proof.
  unfold shouldRun. rewrite negb_true_iff. apply Qltb_ge.
Qed.

Lemma shouldRun_false_iff (now last interval : Q) :
  shouldRun now last interval = false <-> now - last < interval.
Proof.
  unfold shouldRun. rewrite negb_false_iff. apply Qltb_lt.
Qed.

(** What the synchronous part does, by cases. *)
Lemma maybeRunOCR_start_cases (now : Q) (frame : Frame) (st : State) :
  (worker st = true /\ shouldRun now (lastOcrTime st) OCR_INTERVAL = true /\
   maybeRunOCR_start now frame st =
   (set_lastOcrTime now st, Some (computeOCRCrop (canvas st) frame))) \/
  ((worker st = false \/ shouldRun now (lastOcrTime st) OCR_INTERVAL = false) /\
   maybeRunOCR_start now frame st = (st, None)).
Proof.
  unfold maybeRunOCR_start, shouldRun.
  destruct (worker st); cbn [negb].
  - destruct (Qltb (now - lastOcrTime st) OCR_INTERVAL); cbn [negb].
    + right. split; [right|]; reflexivity.
    + left. repeat split.
  - right. split; [left|]; reflexivity.
Qed.

Lemma update_lastOcrTime (newEntry : option HotWheelsEntry) (st : State) :
  lastOcrTime (fst (update newEntry st)) = lastOcrTime st.
Proof.
  unfold update. destruct newEntry as [m|]; [|reflexivity].
  destruct (number_differs m (currentEntry st)); reflexivity.
Qed.

(** The completion of a recognition never writes the timestamp. *)
Lemma maybeRunOCR_resume_lastOcrTime (res : Recognition) (st : State) :
  lastOcrTime (maybeRunOCR_resume res st) = lastOcrTime st.
Proof.
  destruct res as [rawText|err]; cbn [maybeRunOCR_resume]; [|reflexivity].
  rewrite update_lastOcrTime. reflexivity.
Qed.

Lemma step_lastOcrTime_mono (st : State) (ev : Event) :
  lastOcrTime st <= lastOcrTime (step st ev).
Proof.
  destruct ev as [now frame|res]; cbn [step].
  - destruct (maybeRunOCR_start_cases now frame st)
      as [(_ & R & ->)|(_ & ->)]; cbn [fst set_lastOcrTime lastOcrTime].
    + apply shouldRun_iff in R. unfold OCR_INTERVAL in R. lra.
    + apply Qle_refl.
  - rewrite maybeRunOCR_resume_lastOcrTime. apply Qle_refl.
Qed.

Lemma run_lastOcrTime_mono (evs : list Event) (st : State) :
  lastOcrTime st <= lastOcrTime (run st evs).
Proof.
  revert st. induction evs as [|ev evs IH]; intro st; cbn.
  - apply Qle_refl.
  - eapply Qle_trans; [apply step_lastOcrTime_mono | apply IH].
Qed.

Lemma run_app (evs evs' : list Event) (st : State) :
  run st (evs ++ evs') = run (run st evs) evs'.
Proof. unfold run. apply fold_left_app. Qed.

(** C4. The gate lets a recognition attempt through if and only if
    [now - lastRunTimestamp >= intervalMs], equality included; on an
    attempt let through, and only then, the stored timestamp becomes
    [now]; the stored timestamp never decreases along a run.
    [shouldRun 1000 300 750] is false and [shouldRun 1050 300 750] is
    true. *)
Theorem recognition_gate :
  (forall now lastRunTimestamp intervalMs : Q,
      shouldRun now lastRunTimestamp intervalMs = true <->
      intervalMs <= now - lastRunTimestamp) /\
  (forall (now : Q) (frame : Frame) (st : State),
      worker st = true ->
      (OCR_INTERVAL <= now - lastOcrTime st ->
       (exists crop, snd (maybeRunOCR_start now frame st) = Some crop) /\
       lastOcrTime (fst (maybeRunOCR_start now frame st)) = now) /\
      (now - lastOcrTime st < OCR_INTERVAL ->
       maybeRunOCR_start now frame st = (st, None))) /\
  (forall (st : State) (ev : Event),
      lastOcrTime (step st ev) = lastOcrTime st \/
      exists now frame,
        ev = FrameGrabbed now frame /\
        OCR_INTERVAL <= now - lastOcrTime st /\
        lastOcrTime (step st ev) = now) /\
  (forall (st : State) (evs evs' : list Event),
      lastOcrTime (run st evs) <= lastOcrTime (run st (evs ++ evs'))) /\
  (forall now lastRunTimestamp intervalMs : Q,
      lastRunTimestamp <= now ->
      lastRunTimestamp <=
      (if shouldRun now lastRunTimestamp intervalMs
       then now else lastRunTimestamp)) /\
  shouldRun 1000 300 750 = false /\
  shouldRun 1050 300 750 = true.
Proof.
  split; [|split; [|split; [|split; [|split; [|split]]]]].
  - exact shouldRun_iff.
  - intros now frame st W. split; intro H.
    + destruct (maybeRunOCR_start_cases now frame st)
        as [(_ & _ & ->)|([W'|R] & _)].
      * split; [eexists|]; reflexivity.
      * congruence.
      * apply shouldRun_false_iff in R. lra.
    + destruct (maybeRunOCR_start_cases now frame st)
        as [(_ & R & _)|(_ & ->)].
      * apply shouldRun_iff in R. lra.
      * reflexivity.
  - intros st [now frame|res]; cbn [step].
    + destruct (maybeRunOCR_start_cases now frame st)
        as [(_ & R & ->)|(_ & ->)].
      * right. exists now, frame. apply shouldRun_iff in R.
        repeat split. exact R.
      * left. reflexivity.
    + left. apply maybeRunOCR_resume_lastOcrTime.
  - intros st evs evs'. rewrite run_app. apply run_lastOcrTime_mono.
  - intros now last interval H.
    destruct (shouldRun now last interval); [exact H | apply Qle_refl].
  - reflexivity.
  - reflexivity.
Qed.

Lemma recognition_gate_witness :
  shouldRun 1050 300 750 = true /\
  lastOcrTime
    (fst (maybeRunOCR_start 1050 (mkFrame 1280 720)
            (set_lastOcrTime 300 (startup [] (mkCanvas 640 480))))) = 1050 /\
  maybeRunOCR_start 1000 (mkFrame 1280 720)
    (set_lastOcrTime 300 (startup [] (mkCanvas 640 480))) =
  (set_lastOcrTime 300 (startup [] (mkCanvas 640 480)), None) /\
  300 <= (if shouldRun 1050 300 750 then 1050 else 300).
Proof.
  destruct recognition_gate as (G & S & _ & _ & M & _).
  split; [|split; [|split]].
  - apply G. qeval.
  - apply (S 1050 (mkFrame 1280 720)
             (set_lastOcrTime 300 (startup [] (mkCanvas 640 480))));
      [reflexivity | qeval].
  - apply (S 1000 (mkFrame 1280 720)
             (set_lastOcrTime 300 (startup [] (mkCanvas 640 480))));
      reflexivity.
  - apply (M 1050 300 750). qeval.
Defined.

(* ------------------------------------------------------------------ *)
(** ** Entry tracking *)

Lemma number_differs_true (m : HotWheelsEntry) (cur : option HotWheelsEntry) :
  number_differs m cur = true <->
  cur = None \/ exists c, cur = Some c /\ Number m <> Number c.
Proof.
  destruct cur as [c|]; cbn.
  - rewrite negb_true_iff. split.
    + intro H. right. exists c. split; [reflexivity|].
      intro E. apply str_eqb_eq in E. congruence.
    + intros [H|(c' & [= <-] & H)]; [discriminate|].
      destruct (str_eqb (Number m) (Number c)) eqn:E; [|reflexivity].
      apply str_eqb_eq in E. contradiction.
  - split; [left|]; reflexivity.
Qed.

Lemma number_differs_false (m : HotWheelsEntry) (cur : option HotWheelsEntry) :
  number_differs m cur = false <->
  exists c, cur = Some c /\ Number m = Number c.
Proof.
  destruct cur as [c|]; cbn.
  - rewrite negb_false_iff, str_eqb_eq. split.
    + intro H. exists c. split; [reflexivity|exact H].
    + intros (c' & [= <-] & H). exact H.
  - split; [discriminate | intros (c & H & _); discriminate H].
Qed.

(** After [update (Some entryA)] the current entry bears the number of
    [entryA]. *)
Lemma update_settles (entryA : HotWheelsEntry) (st : State) :
  number_differs entryA (currentEntry (fst (update (Some entryA) st))) = false.
Proof.
  unfold update.
  destruct (number_differs entryA (currentEntry st)) eqn:D; cbn.
  - rewrite str_eqb_refl. reflexivity.
  - exact D.
Qed.

(** What the lookup returns is the first entry of its number: an
    earlier entry of the same number would have passed the test too. *)
Lemma resolve_first_of_its_number (rawText : jsstring)
      (catalog : list HotWheelsEntry) (m : HotWheelsEntry) :
  resolve rawText catalog = Some m -> first_of_its_number catalog m.
Proof.
  unfold resolve, first_of_its_number.
  destruct (negb (test CODE_REGEX (trim rawText))); [discriminate|].
  set (prefix := nth 0 (split (code "-") (trim rawText)) []).
  intro H. apply find_first in H.
  destruct H as (before & after & E & Fm & Hb).
  apply find_first. exists before, after.
  split; [exact E|]. split; [apply str_eqb_refl|].
  intros x Hx. destruct (str_eqb (Number x) (Number m)) eqn:S; [|reflexivity].
  apply str_eqb_eq in S. specialize (Hb x Hx). cbv beta in Hb.
  rewrite S in Hb. congruence.
Qed.

Lemma step_hotwheelsData (st : State) (ev : Event) :
  hotwheelsData (step st ev) = hotwheelsData st.
Proof.
  destruct ev as [now frame|[rawText|err]]; cbn [step maybeRunOCR_resume].
  - destruct (maybeRunOCR_start_cases now frame st)
      as [(_ & _ & ->)|(_ & ->)]; reflexivity.
  - unfold update.
    destruct (resolve rawText _) as [m|]; [|reflexivity].
    destruct (number_differs m _); reflexivity.
  - reflexivity.
Qed.

Lemma step_tracked (st : State) (ev : Event) :
  tracked st -> tracked (step st ev).
Proof.
  intros T c. rewrite step_hotwheelsData.
  destruct ev as [now frame|[rawText|err]]; cbn [step maybeRunOCR_resume].
  - destruct (maybeRunOCR_start_cases now frame st)
      as [(_ & _ & ->)|(_ & ->)]; apply T.
  - unfold update. cbn [log hotwheelsData currentEntry].
    destruct (resolve rawText (hotwheelsData st)) as [m|] eqn:R;
      [|apply T].
    destruct (number_differs m (currentEntry st)); [|apply T].
    cbn. intros [= <-]. apply (resolve_first_of_its_number _ _ _ R).
  - apply T.
Qed.

Lemma run_tracked (evs : list Event) (st : State) :
  tracked st -> tracked (run st evs).
Proof.
  revert st. induction evs as [|ev evs IH]; intros st T; cbn.
  - exact T.
  - apply IH. apply step_tracked. exact T.
Qed.

(** In every state the page reaches, a looked-up entry that bears the
    number of the current entry is the current entry. *)
Lemma reached_same_number_same_entry
      (catalog : list HotWheelsEntry) (cv : Canvas) (evs : list Event)
      (rawText : jsstring) (m c : HotWheelsEntry) :
  let st := run (startup catalog cv) evs in
  resolve rawText (hotwheelsData st) = Some m ->
  currentEntry st = Some c ->
  Number c = Number m -> c = m.
Proof.
  intros st R Hc E.
  assert (T : tracked st).
  { apply run_tracked. intros x Hx. discriminate Hx. }
  apply T in Hc. apply resolve_first_of_its_number in R.
  unfold first_of_its_number in *. rewrite E in Hc. congruence.
Qed.

(** C5. If [newEntry] is present and its [Number] differs from that of
    the current entry, or there is no current entry, then the current
    entry is replaced by [newEntry] and a change is emitted; if
    [newEntry] is absent or its [Number] equals the current one, the
    state is unchanged and nothing is emitted.  Hence a second
    [update entryA] emits nothing, and [update None] after
    [update entryA] emits nothing and leaves the current entry as it
    was: [entryA], whenever the first update started from no entry,
    from another number, or from [entryA] itself, which is the case in
    every state the page reaches when [entryA] comes from the lookup. *)
Theorem update_replaces_on_distinct_number :
  forall (st : State) (newEntry : option HotWheelsEntry),
    (forall m,
        newEntry = Some m ->
        (currentEntry st = None \/
         exists c, currentEntry st = Some c /\ Number m <> Number c) ->
        currentEntry (fst (update newEntry st)) = Some m /\
        table (fst (update newEntry st)) = Some m /\
        snd (update newEntry st) = true) /\
    ((newEntry = None \/
      exists m c, newEntry = Some m /\ currentEntry st = Some c /\
                  Number m = Number c) ->
     update newEntry st = (st, false)) /\
    (forall entryA,
        let st1 := fst (update (Some entryA) st) in
        update (Some entryA) st1 = (st1, false) /\
        update None st1 = (st1, false) /\
        ((forall c, currentEntry st = Some c ->
                    Number c = Number entryA -> c = entryA) ->
         currentEntry (fst (update None st1)) = Some entryA)) /\
    (forall catalog cv evs rawText entryA,
        st = run (startup catalog cv) evs ->
        resolve rawText (hotwheelsData st) = Some entryA ->
        currentEntry
          (fst (update None (fst (update (Some entryA) st)))) =
        Some entryA).
Proof.
  intros st newEntry.
  assert (Last : forall entryA,
             (forall c, currentEntry st = Some c ->
                        Number c = Number entryA -> c = entryA) ->
             currentEntry
               (fst (update None (fst (update (Some entryA) st)))) =
             Some entryA).
  { intros entryA Same. cbn [update fst]. unfold update.
    destruct (number_differs entryA (currentEntry st)) eqn:D; cbn.
    - reflexivity.
    - apply number_differs_false in D. destruct D as (c & Hc & E).
      rewrite Hc. f_equal. apply Same; [exact Hc | symmetry; exact E]. }
  split; [|split; [|split]].
  - intros m -> H. apply number_differs_true in H.
    unfold update. rewrite H. repeat split.
  - intros [->|(m & c & -> & Hc & E)]; [reflexivity|].
    unfold update.
    assert (D : number_differs m (currentEntry st) = false)
      by (apply number_differs_false; exists c; split; assumption).
    rewrite D. reflexivity.
  - intros entryA st1. split; [|split].
    + unfold update at 1. subst st1. rewrite update_settles. reflexivity.
    + reflexivity.
    + intro Same. subst st1. apply Last. exact Same.
  - intros catalog cv evs rawText entryA -> R. apply Last.
    intros c Hc E.
    apply (reached_same_number_same_entry catalog cv evs rawText entryA c R Hc E).
Qed.

Lemma update_replaces_on_distinct_number_witness :
  currentEntry
    (fst (update (Some entry_AB12)
            (startup [entry_AB12] (mkCanvas 640 480)))) = Some entry_AB12 /\
  currentEntry
    (fst (update (Some entry_AB1)
            (set_currentEntry entry_AB12
               (startup [entry_AB12] (mkCanvas 640 480))))) = Some entry_AB1 /\
  update (Some entry_AB12)
         (set_currentEntry entry_AB12
            (startup [entry_AB12] (mkCanvas 640 480))) =
  (set_currentEntry entry_AB12 (startup [entry_AB12] (mkCanvas 640 480)),
   false) /\
  currentEntry
    (fst (update None
            (fst (update (Some entry_AB12)
                    (startup [entry_AB12] (mkCanvas 640 480)))))) =
  Some entry_AB12.
Proof.
  split; [|split; [|split]].
  - pose proof (update_replaces_on_distinct_number
                  (startup [entry_AB12] (mkCanvas 640 480))
                  (Some entry_AB12)) as (R & _).
    apply (R entry_AB12); [reflexivity | left; reflexivity].
  - pose proof (update_replaces_on_distinct_number
                  (set_currentEntry entry_AB12
                     (startup [entry_AB12] (mkCanvas 640 480)))
                  (Some entry_AB1)) as (R & _).
    apply (R entry_AB1); [reflexivity|].
    right. exists entry_AB12. split; [reflexivity | discriminate].
  - pose proof (update_replaces_on_distinct_number
                  (set_currentEntry entry_AB12
                     (startup [entry_AB12] (mkCanvas 640 480)))
                  (Some entry_AB12)) as (_ & K & _).
    apply K. right. exists entry_AB12, entry_AB12. repeat split.
  - pose proof (update_replaces_on_distinct_number
                  (startup [entry_AB12] (mkCanvas 640 480))
                  None) as (_ & _ & C & _).
    apply (C entry_AB12). intros c Hc. discriminate Hc.
Defined.

(* ------------------------------------------------------------------ *)
(** ** Recognition failure *)

(** C8. When the recognition engine fails, the current entry is left
    as it is (a set entry is not cleared), the state ends as it does
    after a text that resolves to nothing, and the timestamp keeps the
    value it was given when the attempt started, so the next decision
    of the gate is unaffected. *)
Theorem recognition_failure_isolated :
  forall (st : State) (err : jsstring),
    let st' := maybeRunOCR_resume (Rejected err) st in
    currentEntry st' = currentEntry st /\
    lastOcrTime st' = lastOcrTime st /\
    table st' = table st /\
    console st' = console st ++ [Err_OCRFailed err] /\
    (forall rawText,
        resolve rawText (hotwheelsData st) = None ->
        let sn := maybeRunOCR_resume (Recognized rawText) st in
        currentEntry st' = currentEntry sn /\
        lastOcrTime st' = lastOcrTime sn /\
        table st' = table sn) /\
    (forall (now : Q) (frame : Frame) (st0 : State) (crop : Rect),
        maybeRunOCR_start now frame st0 = (st, Some crop) ->
        lastOcrTime st' = now) /\
    (forall now' : Q,
        shouldRun now' (lastOcrTime st') OCR_INTERVAL =
        shouldRun now' (lastOcrTime st) OCR_INTERVAL).
Proof.
  intros st err st'. subst st'. cbn [maybeRunOCR_resume].
  repeat match goal with |- _ /\ _ => split end; try reflexivity.
  - intros rawText R. cbn [log hotwheelsData]. rewrite R. repeat split.
  - intros now frame st0 crop H.
    destruct (maybeRunOCR_start_cases now frame st0)
      as [(_ & _ & E)|(_ & E)]; rewrite E in H.
    + injection H as <- _. reflexivity.
    + discriminate H.
Qed.

Lemma recognition_failure_isolated_witness :
  let st := set_currentEntry entry_AB12
              (fst (maybeRunOCR_start 1050 (mkFrame 1280 720)
                      (startup [entry_AB12] (mkCanvas 640 480)))) in
  let st' := maybeRunOCR_resume (Rejected (str "worker crashed")) st in
  currentEntry st' = Some entry_AB12 /\
  lastOcrTime st' = 1050 /\
  currentEntry st' =
  currentEntry (maybeRunOCR_resume (Recognized (str "garbage")) st).
Proof.
  intros st st'.
  pose proof (recognition_failure_isolated st (str "worker crashed"))
    as (C & L & _ & _ & N & _).
  split; [|split].
  - exact C.
  - exact L.
  - apply (N (str "garbage")). reflexivity.
Defined.

(* ================================================================== *)
(** * Further properties of the geometry *)

Lemma Qgtb_compat (a a' b b' : Q) :
  a == a' -> b == b' -> Qgtb a b = Qgtb a' b'.
Proof.
  intros Ha Hb.
  destruct (Qgtb a b) eqn:E, (Qgtb a' b') eqn:E'; try reflexivity.
  - apply Qgtb_gt in E. apply Qgtb_le in E'. rewrite Ha, Hb in E. lra.
  - apply Qgtb_le in E. apply Qgtb_gt in E'. rewrite Ha, Hb in E. lra.
Qed.

(** The two shapes of the cover crop, with the comparison that selects
    each. *)
Lemma cover_crop_cases (srcW srcH dstW dstH : Q) :
  (dstW / dstH < srcW / srcH /\
   computeCoverCrop srcW srcH dstW dstH =
   {| sx := (srcW - srcH * (dstW / dstH)) / 2; sy := 0;
      sw := srcH * (dstW / dstH); sh := srcH |}) \/
  (srcW / srcH <= dstW / dstH /\
   computeCoverCrop srcW srcH dstW dstH =
   {| sx := 0; sy := (srcH - srcW / (dstW / dstH)) / 2;
      sw := srcW; sh := srcW / (dstW / dstH) |}).
Proof.
  unfold computeCoverCrop.
  destruct (Qgtb (srcW / srcH) (dstW / dstH)) eqn:E.
  - left. split; [apply Qgtb_gt; exact E | reflexivity].
  - right. split; [apply Qgtb_le; exact E | reflexivity].
Qed.

Lemma cover_crop_centre (srcW srcH dstW dstH : Q) :
  let r := computeCoverCrop srcW srcH dstW dstH in
  sx r + sw r / 2 == srcW / 2 /\ sy r + sh r / 2 == srcH / 2.
Proof.
  intro r. subst r.
  destruct (cover_crop_cases srcW srcH dstW dstH) as [(_ & ->)|(_ & ->)];
    cbn [sx sy sw sh].
  - set (w := srcH * (dstW / dstH)). halves. split; lra.
  - set (h := srcW / (dstW / dstH)). halves. split; lra.
Qed.

(** X1. The cover crop is centred on the source frame. *)
Theorem computeCoverCrop_centred :
  forall srcW srcH dstW dstH : Q,
    0 < srcW -> 0 < srcH -> 0 < dstW -> 0 < dstH ->
    let r := computeCoverCrop srcW srcH dstW dstH in
    sx r + sw r / 2 == srcW / 2 /\ sy r + sh r / 2 == srcH / 2.
Proof.
  intros srcW srcH dstW dstH _ _ _ _.
  apply cover_crop_centre.
Qed.

Lemma computeCoverCrop_centred_witness :
  let r := computeCoverCrop 1280 720 640 480 in
  sx r + sw r / 2 == 1280 / 2 /\ sy r + sh r / 2 == 720 / 2.
Proof.
  apply (computeCoverCrop_centred 1280 720 640 480); reflexivity.
Defined.

(** X2. The cover crop is the largest rectangle of the destination's
    aspect ratio that fits in the source: any rectangle of that aspect
    ratio no larger than the source is no larger than the crop; when the
    source already has the destination's aspect ratio the crop is the
    whole source. *)
Theorem computeCoverCrop_largest :
  forall srcW srcH dstW dstH : Q,
    0 < srcW -> 0 < srcH -> 0 < dstW -> 0 < dstH ->
    let r := computeCoverCrop srcW srcH dstW dstH in
    (forall w h : Q,
        0 < w -> 0 < h -> w <= srcW -> h <= srcH ->
        w / h == dstW / dstH ->
        w <= sw r /\ h <= sh r) /\
    (srcW / srcH == dstW / dstH ->
     Rect_eq r {| sx := 0; sy := 0; sw := srcW; sh := srcH |}).
Proof.
  intros srcW srcH dstW dstH HsW HsH HdW HdH r. subst r.
  pose proof (ratio_pos dstW dstH HdW HdH) as Hr.
  split.
  - intros w h Hw Hh HwW HhH A.
    assert (Ew : w == h * (dstW / dstH)).
    { rewrite <- A. field. lra. }
    assert (Eh : h == w / (dstW / dstH)).
    { rewrite <- A. field. split; lra. }
    destruct (cover_crop_cases srcW srcH dstW dstH) as [(_ & ->)|(_ & ->)];
      cbn [sx sy sw sh].
    + split; [|exact HhH]. rewrite Ew.
      apply Qmult_le_compat_r; [exact HhH | lra].
    + split; [exact HwW|]. rewrite Eh. unfold Qdiv.
      apply Qmult_le_compat_r; [exact HwW|].
      apply Qlt_le_weak, Qinv_lt_0_compat. exact Hr.
  - intro A.
    destruct (cover_crop_cases srcW srcH dstW dstH) as [(C & _)|(_ & ->)].
    + rewrite A in C. lra.
    + assert (E : srcW / (dstW / dstH) == srcH).
      { rewrite <- A. field. split; lra. }
      repeat split; cbn [sx sy sw sh]; try reflexivity; rewrite E.
      * halves. lra.
      * reflexivity.
Qed.

Lemma computeCoverCrop_largest_witness :
  (400 <= sw (computeCoverCrop 1280 720 640 480) /\
   300 <= sh (computeCoverCrop 1280 720 640 480)) /\
  Rect_eq (computeCoverCrop 1280 960 640 480)
          {| sx := 0; sy := 0; sw := 1280; sh := 960 |}.
Proof.
  split.
  - pose proof (computeCoverCrop_largest 1280 720 640 480
                  eq_refl eq_refl eq_refl eq_refl) as (L & _).
    apply (L 400 300); qeval.
  - pose proof (computeCoverCrop_largest 1280 960 640 480
                  eq_refl eq_refl eq_refl eq_refl) as (_ & W).
    apply W. reflexivity.
Defined.

(** X3. Only the shape of the destination matters, and the crop scales
    with the source: enlarging the destination by a factor leaves the
    crop unchanged, enlarging the source by a factor enlarges the crop
    by that factor. *)
Theorem computeCoverCrop_scaling :
  forall srcW srcH dstW dstH k : Q,
    0 < srcW -> 0 < srcH -> 0 < dstW -> 0 < dstH -> 0 < k ->
    Rect_eq (computeCoverCrop srcW srcH (k * dstW) (k * dstH))
            (computeCoverCrop srcW srcH dstW dstH) /\
    Rect_eq (computeCoverCrop (k * srcW) (k * srcH) dstW dstH)
            (Rect_scale k (computeCoverCrop srcW srcH dstW dstH)).
Proof.
  intros srcW srcH dstW dstH k HsW HsH HdW HdH Hk.
  assert (Ed : k * dstW / (k * dstH) == dstW / dstH) by (field; lra).
  assert (Es : k * srcW / (k * srcH) == srcW / srcH) by (field; lra).
  split.
  - unfold computeCoverCrop.
    rewrite (Qgtb_compat (srcW / srcH) (srcW / srcH)
               (k * dstW / (k * dstH)) (dstW / dstH) (Qeq_refl _) Ed).
    destruct (Qgtb (srcW / srcH) (dstW / dstH)); repeat split;
      cbn [sx sy sw sh]; try reflexivity; field; lra.
  - unfold computeCoverCrop.
    rewrite (Qgtb_compat (k * srcW / (k * srcH)) (srcW / srcH)
               (dstW / dstH) (dstW / dstH) Es (Qeq_refl _)).
    destruct (Qgtb (srcW / srcH) (dstW / dstH)); repeat split;
      cbn [Rect_scale sx sy sw sh]; try (field; lra).
Qed.

Lemma computeCoverCrop_scaling_witness :
  Rect_eq (computeCoverCrop 1280 720 (2 * 320) (2 * 240))
          (computeCoverCrop 1280 720 320 240) /\
  Rect_eq (computeCoverCrop (2 * 640) (2 * 360) 320 240)
          (Rect_scale 2 (computeCoverCrop 640 360 320 240)).
Proof.
  split.
  - apply (computeCoverCrop_scaling 1280 720 320 240 2); reflexivity.
  - apply (computeCoverCrop_scaling 640 360 320 240 2); reflexivity.
Defined.

(** The display crop has one scale on both axes: the smaller of the two
    ratios of source to canvas size. *)
Lemma display_scale (srcW srcH cw ch : Q) :
  0 < srcW -> 0 < srcH -> 0 < cw -> 0 < ch ->
  let d := computeCoverCrop srcW srcH cw ch in
  sw d / cw == Qmin (srcW / cw) (srcH / ch) /\
  sh d / ch == Qmin (srcW / cw) (srcH / ch).
Proof.
  intros HsW HsH Hcw Hch d. subst d.
  destruct (cover_crop_cases srcW srcH cw ch) as [(C & ->)|(C & ->)];
    cbn [sx sy sw sh].
  - apply (ratio_gt_cross srcW srcH cw ch HsH Hch) in C.
    assert (M : Qmin (srcW / cw) (srcH / ch) == srcH / ch).
    { apply Q.min_r. apply Qlt_le_weak.
      apply (ratio_gt_cross srcW cw srcH ch Hcw Hch). lra. }
    rewrite M. split; field; lra.
  - apply (ratio_le_cross srcW srcH cw ch HsH Hch) in C.
    assert (M : Qmin (srcW / cw) (srcH / ch) == srcW / cw).
    { apply Q.min_l.
      apply (ratio_le_cross srcW cw srcH ch Hcw Hch). lra. }
    rewrite M. split; field; lra.
Qed.

(** X4. The OCR crop is the guide box at one scale on both axes, the
    smaller of [frame.width / canvas.width] and
    [frame.height / canvas.height]: its size is 100 and 40 times that
    scale, so its aspect ratio is always 5 to 2. *)
Theorem computeOCRCrop_uniform_scale :
  forall (frame : Frame) (canvas : Canvas),
    0 < width frame -> 0 < height frame ->
    0 < canvas_width canvas -> 0 < canvas_height canvas ->
    let scale := Qmin (width frame / canvas_width canvas)
                      (height frame / canvas_height canvas) in
    let r := computeOCRCrop canvas frame in
    sw r == 100 * scale /\ sh r == 40 * scale /\
    0 < sh r /\ sw r / sh r == 5 / 2.
Proof.
  intros frame canvas Hw Hh Hcw Hch scale r. subst r.
  pose proof (display_scale _ _ _ _ Hw Hh Hcw Hch) as (EX & EY).
  cbv zeta in EX, EY. fold scale in EX, EY.
  assert (Hs : 0 < scale).
  { unfold scale. apply Q.min_glb_lt; apply ratio_pos; assumption. }
  unfold computeOCRCrop. cbn [sx sy sw sh].
  unfold GUIDE_WIDTH, GUIDE_HEIGHT.
  rewrite EX, EY. repeat split; try reflexivity.
  - lra.
  - field. lra.
Qed.

Lemma computeOCRCrop_uniform_scale_witness :
  let r := computeOCRCrop (mkCanvas 640 480) (mkFrame 1280 720) in
  sw r == 100 * Qmin (1280 / 640) (720 / 480) /\
  sw r / sh r == 5 / 2.
Proof.
  pose proof (computeOCRCrop_uniform_scale
                (mkFrame 1280 720) (mkCanvas 640 480)
                eq_refl eq_refl eq_refl eq_refl) as (A & _ & _ & B).
  split; [exact A | exact B].
Defined.

(** X5. The OCR crop is centred on the frame, whatever the shapes of the
    frame and of the canvas. *)
Theorem computeOCRCrop_centred :
  forall (frame : Frame) (canvas : Canvas),
    0 < width frame -> 0 < height frame ->
    0 < canvas_width canvas -> 0 < canvas_height canvas ->
    let r := computeOCRCrop canvas frame in
    sx r + sw r / 2 == width frame / 2 /\
    sy r + sh r / 2 == height frame / 2.
Proof.
  intros frame canvas Hw Hh Hcw Hch r. subst r.
  pose proof (cover_crop_centre (width frame) (height frame)
                (canvas_width canvas) (canvas_height canvas)) as (CX & CY).
  cbv zeta in CX, CY.
  unfold computeOCRCrop. cbn [sx sy sw sh].
  set (d := computeCoverCrop (width frame) (height frame)
              (canvas_width canvas) (canvas_height canvas)) in *.
  unfold GUIDE_WIDTH, GUIDE_HEIGHT.
  split.
  - rewrite <- CX. field. lra.
  - rewrite <- CY. field. lra.
Qed.

Lemma computeOCRCrop_centred_witness :
  let r := computeOCRCrop (mkCanvas 640 480) (mkFrame 1280 720) in
  sx r + sw r / 2 == 1280 / 2 /\ sy r + sh r / 2 == 720 / 2.
Proof.
  apply (computeOCRCrop_centred (mkFrame 1280 720) (mkCanvas 640 480));
    reflexivity.
Defined.

(** X6. What is recognized is part of what is shown: when the canvas is
    at least 100 wide and 40 high, the OCR crop lies inside the rectangle
    of the frame that [drawFrame] displays. *)
Theorem computeOCRCrop_within_display_crop :
  forall (frame : Frame) (canvas : Canvas),
    0 < width frame -> 0 < height frame ->
    100 <= canvas_width canvas -> 40 <= canvas_height canvas ->
    Rect_within
      (computeOCRCrop canvas frame)
      (computeCoverCrop (width frame) (height frame)
                        (canvas_width canvas) (canvas_height canvas)).
Proof.
  intros frame canvas Hw Hh Hcw Hch.
  assert (Hcw0 : 0 < canvas_width canvas) by lra.
  assert (Hch0 : 0 < canvas_height canvas) by lra.
  pose proof (cover_crop_bounds (width frame) (height frame)
                (canvas_width canvas) (canvas_height canvas)
                Hw Hh Hcw0 Hch0) as B.
  cbv zeta in B. destruct B as (_ & _ & _ & _ & Bw & Bh & _).
  unfold Rect_within, computeOCRCrop. cbn [sx sy sw sh].
  set (d := computeCoverCrop (width frame) (height frame)
              (canvas_width canvas) (canvas_height canvas)) in *.
  unfold GUIDE_WIDTH, GUIDE_HEIGHT.
  pose proof (ratio_pos (sw d) (canvas_width canvas) Bw Hcw0) as HsX.
  pose proof (ratio_pos (sh d) (canvas_height canvas) Bh Hch0) as HsY.
  assert (EX : sw d / canvas_width canvas * canvas_width canvas == sw d)
    by (field; lra).
  assert (EY : sh d / canvas_height canvas * canvas_height canvas == sh d)
    by (field; lra).
  set (scaleX := sw d / canvas_width canvas) in *.
  set (scaleY := sh d / canvas_height canvas) in *.
  halves.
  repeat split; nra.
Qed.

Lemma computeOCRCrop_within_display_crop_witness :
  Rect_within (computeOCRCrop (mkCanvas 640 480) (mkFrame 1280 720))
              (computeCoverCrop 1280 720 640 480).
Proof.
  apply (computeOCRCrop_within_display_crop
           (mkFrame 1280 720) (mkCanvas 640 480)); cbn; qeval.
Defined.

(** X7. On the canvas, the OCR crop is the guide box: the part of the
    frame handed to recognition is drawn by [drawFrame] exactly where
    [drawHelperBox] draws the box. *)
Theorem computeOCRCrop_shown_in_guide_box :
  forall (frame : Frame) (canvas : Canvas),
    0 < width frame -> 0 < height frame ->
    0 < canvas_width canvas -> 0 < canvas_height canvas ->
    Rect_eq
      (canvas_image
         (computeCoverCrop (width frame) (height frame)
                           (canvas_width canvas) (canvas_height canvas))
         canvas (computeOCRCrop canvas frame))
      (guideBox canvas).
Proof.
  intros frame canvas Hw Hh Hcw Hch.
  pose proof (cover_crop_bounds (width frame) (height frame)
                (canvas_width canvas) (canvas_height canvas)
                Hw Hh Hcw Hch) as B.
  cbv zeta in B. destruct B as (_ & _ & _ & _ & Bw & Bh & _).
  unfold Rect_eq, canvas_image, computeOCRCrop, guideBox.
  cbn [sx sy sw sh].
  set (d := computeCoverCrop (width frame) (height frame)
              (canvas_width canvas) (canvas_height canvas)) in *.
  repeat split; field; split; lra.
Qed.

Lemma computeOCRCrop_shown_in_guide_box_witness :
  Rect_eq
    (canvas_image (computeCoverCrop 1280 720 640 480) (mkCanvas 640 480)
                  (computeOCRCrop (mkCanvas 640 480) (mkFrame 1280 720)))
    {| sx := 270; sy := 220; sw := 100; sh := 40 |}.
Proof.
  pose proof (computeOCRCrop_shown_in_guide_box
                (mkFrame 1280 720) (mkCanvas 640 480)
                eq_refl eq_refl eq_refl eq_refl) as (A & B & C & D).
  split; [|split; [|split]].
  - rewrite A. reflexivity.
  - rewrite B. reflexivity.
  - rewrite C. reflexivity.
  - rewrite D. reflexivity.
Defined.

(* ================================================================== *)
(** * Further properties of the recognition pipeline *)

Lemma attempts_at_true (now : Q) (frame : Frame) (st : State) :
  attempts_at now frame st = true ->
  OCR_INTERVAL <= now - lastOcrTime st /\
  lastOcrTime (fst (maybeRunOCR_start now frame st)) = now.
Proof.
  unfold attempts_at.
  destruct (maybeRunOCR_start_cases now frame st)
    as [(_ & R & ->)|(_ & ->)]; cbn [fst snd]; [|discriminate].
  intros _. apply shouldRun_iff in R. split; [exact R | reflexivity].
Qed.

(** X8. Two recognition attempts of a run are at least [OCR_INTERVAL]
    apart, however many frames and completions lie between them. *)
Theorem recognition_attempts_spaced :
  forall (st : State) (now1 now2 : Q) (frame1 frame2 : Frame)
         (evs : list Event),
    attempts_at now1 frame1 st = true ->
    attempts_at now2 frame2
      (run (step st (FrameGrabbed now1 frame1)) evs) = true ->
    OCR_INTERVAL <= now2 - now1.
Proof.
  intros st now1 now2 frame1 frame2 evs A1 A2.
  apply attempts_at_true in A1. destruct A1 as (_ & L1).
  apply attempts_at_true in A2. destruct A2 as (G2 & _).
  pose proof (run_lastOcrTime_mono evs (step st (FrameGrabbed now1 frame1)))
    as M.
  cbn [step] in M, G2. rewrite L1 in M. lra.
Qed.

Lemma recognition_attempts_spaced_witness :
  OCR_INTERVAL <= 1600 - 800.
Proof.
  apply (recognition_attempts_spaced
           (startup [] (mkCanvas 640 480)) 800 1600
           (mkFrame 1280 720) (mkFrame 1280 720)
           [FrameGrabbed 900 (mkFrame 1280 720);
            RecognitionSettled (Rejected (str "busy"))]);
    reflexivity.
Defined.

(** Each attempt moves the timestamp forward by the interval or more. *)
Lemma attempts_advance (evs : list Event) (st : State) :
  lastOcrTime st + OCR_INTERVAL * inject_Z (Z.of_nat (attempts st evs))
  <= lastOcrTime (run st evs).
Proof.
  revert st. induction evs as [|ev evs IH]; intro st.
  - cbn [attempts run fold_left].
    change (inject_Z (Z.of_nat 0)) with 0. lra.
  - cbn [attempts run fold_left]. fold (run (step st ev) evs).
    specialize (IH (step st ev)).
    rewrite Nat2Z.inj_add, inject_Z_plus. unfold OCR_INTERVAL in *.
    destruct ev as [now frame|res].
    + destruct (attempts_at now frame st) eqn:A.
      * apply attempts_at_true in A. destruct A as (G & L).
        cbn [step] in *. rewrite L in IH.
        change (inject_Z (Z.of_nat 1)) with 1.
        unfold OCR_INTERVAL in G. lra.
      * pose proof (step_lastOcrTime_mono st (FrameGrabbed now frame)) as M.
        change (inject_Z (Z.of_nat 0)) with 0. lra.
    + pose proof (step_lastOcrTime_mono st (RecognitionSettled res)) as M.
      change (inject_Z (Z.of_nat 0)) with 0. lra.
Qed.

(** The timestamp never passes the latest clock reading. *)
Lemma lastOcrTime_bounded (tmax : Q) (evs : list Event) (st : State) :
  lastOcrTime st <= tmax ->
  (forall now frame, In (FrameGrabbed now frame) evs -> now <= tmax) ->
  lastOcrTime (run st evs) <= tmax.
Proof.
  revert st. induction evs as [|ev evs IH]; intros st L H.
  - exact L.
  - cbn [run fold_left]. fold (run (step st ev) evs). apply IH.
    + destruct ev as [now frame|res]; cbn [step].
      * destruct (maybeRunOCR_start_cases now frame st)
          as [(_ & _ & ->)|(_ & ->)]; cbn [fst set_lastOcrTime lastOcrTime].
        -- apply (H now frame). left. reflexivity.
        -- exact L.
      * rewrite maybeRunOCR_resume_lastOcrTime. exact L.
    + intros now frame Hin. apply (H now frame). right. exact Hin.
Qed.

(** X9. The rate of recognition is bounded whatever the frame rate: in
    a run whose clock readings do not exceed [tmax], the number of
    attempts times [OCR_INTERVAL] is at most the time from the stored
    timestamp to [tmax]. *)
Theorem recognition_rate_bounded :
  forall (st : State) (evs : list Event) (tmax : Q),
    lastOcrTime st <= tmax ->
    (forall now frame, In (FrameGrabbed now frame) evs -> now <= tmax) ->
    OCR_INTERVAL * inject_Z (Z.of_nat (attempts st evs))
    <= tmax - lastOcrTime st.
Proof.
  intros st evs tmax L H.
  pose proof (attempts_advance evs st) as A.
  pose proof (lastOcrTime_bounded tmax evs st L H) as B.
  unfold OCR_INTERVAL in *. lra.
Qed.

Lemma recognition_rate_bounded_witness :
  OCR_INTERVAL *
  inject_Z (Z.of_nat
    (attempts (startup [] (mkCanvas 640 480))
       [FrameGrabbed 800 (mkFrame 1280 720);
        FrameGrabbed 900 (mkFrame 1280 720);
        FrameGrabbed 1600 (mkFrame 1280 720)]))
  <= 1600 - 0.
Proof.
  apply (recognition_rate_bounded
           (startup [] (mkCanvas 640 480))
           [FrameGrabbed 800 (mkFrame 1280 720);
            FrameGrabbed 900 (mkFrame 1280 720);
            FrameGrabbed 1600 (mkFrame 1280 720)] 1600).
  - cbn. qeval.
  - intros now frame [E|[E|[E|[]]]]; injection E as <- _; qeval.
Defined.

Lemma step_table_shows_entry (st : State) (ev : Event) :
  table st = currentEntry st ->
  table (step st ev) = currentEntry (step st ev).
Proof.
  intro T. destruct ev as [now frame|[rawText|err]];
    cbn [step maybeRunOCR_resume].
  - destruct (maybeRunOCR_start_cases now frame st)
      as [(_ & _ & ->)|(_ & ->)]; exact T.
  - unfold update. cbn [log hotwheelsData currentEntry].
    destruct (resolve rawText (hotwheelsData st)) as [m|]; [|exact T].
    destruct (number_differs m (currentEntry st)); [reflexivity | exact T].
  - exact T.
Qed.

(** X10. The table always shows the current entry: from startup on,
    after any frames and recognition results, what [updateTable] last
    wrote is the current entry, and nothing was written while there is
    none. *)
Theorem table_shows_currentEntry :
  forall (catalog : list HotWheelsEntry) (cv : Canvas) (evs : list Event),
    table (run (startup catalog cv) evs) =
    currentEntry (run (startup catalog cv) evs).
Proof.
  intros catalog cv evs.
  assert (G : forall st, table st = currentEntry st ->
                         table (run st evs) = currentEntry (run st evs)).
  { induction evs as [|ev evs IH]; intros st T; cbn.
    - exact T.
    - apply IH. apply step_table_shows_entry. exact T. }
  apply G. reflexivity.
Qed.

Lemma step_keeps_entry (st : State) (ev : Event) :
  currentEntry st <> None -> currentEntry (step st ev) <> None.
Proof.
  intro T. destruct ev as [now frame|[rawText|err]];
    cbn [step maybeRunOCR_resume].
  - destruct (maybeRunOCR_start_cases now frame st)
      as [(_ & _ & ->)|(_ & ->)]; exact T.
  - unfold update. cbn [log hotwheelsData currentEntry].
    destruct (resolve rawText (hotwheelsData st)) as [m|]; [|exact T].
    destruct (number_differs m (currentEntry st)); [discriminate | exact T].
  - exact T.
Qed.

Lemma resolve_In (rawText : jsstring) (catalog : list HotWheelsEntry)
      (m : HotWheelsEntry) :
  resolve rawText catalog = Some m -> In m catalog.
Proof.
  unfold resolve.
  destruct (negb (test CODE_REGEX (trim rawText))); [discriminate|].
  intro H. apply find_some in H. apply H.
Qed.

Lemma step_entry_in_catalog (st : State) (ev : Event) :
  (forall c, currentEntry st = Some c -> In c (hotwheelsData st)) ->
  forall c, currentEntry (step st ev) = Some c ->
            In c (hotwheelsData (step st ev)).
Proof.
  intros T c. rewrite step_hotwheelsData.
  destruct ev as [now frame|[rawText|err]]; cbn [step maybeRunOCR_resume].
  - destruct (maybeRunOCR_start_cases now frame st)
      as [(_ & _ & ->)|(_ & ->)]; apply T.
  - unfold update. cbn [log hotwheelsData currentEntry].
    destruct (resolve rawText (hotwheelsData st)) as [m|] eqn:R; [|apply T].
    destruct (number_differs m (currentEntry st)); [|apply T].
    cbn. intros [= <-]. apply (resolve_In _ _ _ R).
  - apply T.
Qed.

(** X11. A recognized entry is never cleared and never invented: once
    there is a current entry there is one after any further frames,
    failures and recognition results; and from startup on the current
    entry is an entry of the catalog, which itself never changes. *)
Theorem currentEntry_kept_and_from_catalog :
  (forall (st : State) (evs : list Event),
      currentEntry st <> None -> currentEntry (run st evs) <> None) /\
  (forall (catalog : list HotWheelsEntry) (cv : Canvas) (evs : list Event),
      hotwheelsData (run (startup catalog cv) evs) = catalog /\
      forall c, currentEntry (run (startup catalog cv) evs) = Some c ->
                In c catalog).
Proof.
  split.
  - intros st evs. revert st.
    induction evs as [|ev evs IH]; intros st T; cbn.
    + exact T.
    + apply IH. apply step_keeps_entry. exact T.
  - intros catalog cv evs.
    assert (G : forall st,
               (forall c, currentEntry st = Some c -> In c (hotwheelsData st)) ->
               hotwheelsData (run st evs) = hotwheelsData st /\
               forall c, currentEntry (run st evs) = Some c ->
                         In c (hotwheelsData st)).
    { induction evs as [|ev evs IH]; intros st T; cbn.
      - split; [reflexivity | exact T].
      - destruct (IH (step st ev) (step_entry_in_catalog st ev T)) as (H & I).
        rewrite step_hotwheelsData in H, I. split; assumption. }
    apply (G (startup catalog cv)). intros c Hc. discriminate Hc.
Qed.

Lemma currentEntry_kept_and_from_catalog_witness :
  currentEntry
    (run (set_currentEntry entry_AB12 (startup [entry_AB12] (mkCanvas 640 480)))
         [RecognitionSettled (Rejected (str "busy"));
          RecognitionSettled (Recognized (str "noise"))]) <> None.
Proof.
  destruct currentEntry_kept_and_from_catalog as (K & _).
  apply K. discriminate.
Defined.

(* ================================================================== *)
(** * Further properties of the catalog lookup *)

Lemma resolve_Some_structural (rawText : jsstring)
      (catalog : list HotWheelsEntry) (m : HotWheelsEntry) :
  resolve rawText catalog = Some m ->
  exists a b, structural (trim rawText) a b /\
              find (fun e => startsWith a (Number e)) catalog = Some m.
Proof.
  intro R.
  destruct (test CODE_REGEX (trim rawText)) eqn:T.
  - apply CODE_REGEX_structural in T. destruct T as (a & b & S).
    exists a, b. split; [exact S|].
    rewrite <- (resolve_structural _ _ _ _ S). exact R.
  - rewrite (resolve_not_structural _ _ T) in R. discriminate R.
Qed.

(** X12. Which entries can be matched at all: the entry a lookup
    returns is in the catalog, its [Number] is a leading part of the
    trimmed text, has at most five characters and consists of upper-case
    letters and digits only.  An entry whose [Number] is longer, or holds
    any other character, is never returned. *)
Theorem resolve_matchable_numbers :
  forall (rawText : jsstring) (catalog : list HotWheelsEntry),
    (forall m, resolve rawText catalog = Some m ->
               In m catalog /\
               is_prefix (Number m) (trim rawText) /\
               (List.length (Number m) <= 5)%nat /\
               Forall (fun c => isCodeChar c = true) (Number m)) /\
    (forall e,
        ((5 < List.length (Number e))%nat \/
         exists c, In c (Number e) /\ isCodeChar c = false) ->
        resolve rawText catalog <> Some e).
Proof.
  intros rawText catalog.
  assert (G : forall m, resolve rawText catalog = Some m ->
               In m catalog /\
               is_prefix (Number m) (trim rawText) /\
               (List.length (Number m) <= 5)%nat /\
               Forall (fun c => isCodeChar c = true) (Number m)).
  { intros m R. split; [apply (resolve_In _ _ _ R)|].
    apply resolve_Some_structural in R.
    destruct R as (a & b & (E & (La & Fa) & _) & F).
    apply find_some in F. destruct F as (_ & P).
    apply startsWith_is_prefix in P. destruct P as (t & Ht).
    split; [|split].
    - exists (t ++ code "-" :: b). rewrite E, Ht, <- app_assoc. reflexivity.
    - rewrite Ht, length_app in La. lia.
    - rewrite Ht in Fa. apply Forall_app in Fa. apply Fa. }
  split; [exact G|].
  intros e [Long|(c & Hc & Bad)] R; apply G in R;
    destruct R as (_ & _ & L & F).
  - lia.
  - rewrite Forall_forall in F. rewrite (F c Hc) in Bad. discriminate Bad.
Qed.

Lemma resolve_matchable_numbers_witness :
  resolve (str "ABCDE-XY99")
          [mkEntry (str "ABCDEF") [] [] []; mkEntry (str "ab") [] [] []]
  <> Some (mkEntry (str "ABCDEF") [] [] []).
Proof.
  pose proof (resolve_matchable_numbers (str "ABCDE-XY99")
                [mkEntry (str "ABCDEF") [] [] []; mkEntry (str "ab") [] [] []])
    as (_ & U).
  apply U. left. cbn. lia.
Defined.

Lemma find_in_front (f : HotWheelsEntry -> bool)
      (before rest : list HotWheelsEntry) (x : HotWheelsEntry) :
  In x before -> f x = true ->
  exists y, find f (before ++ rest) = Some y /\ In y before.
Proof.
  induction before as [|z before IH]; intros Hin Fx; [destruct Hin|].
  cbn. destruct (f z) eqn:Fz.
  - exists z. split; [reflexivity | left; reflexivity].
  - destruct Hin as [->|Hin]; [congruence|].
    destruct (IH Hin Fx) as (y & Hy & Iy).
    exists y. split; [exact Hy | right; exact Iy].
Qed.

Lemma is_prefix_trans (p q s : jsstring) :
  is_prefix p q -> is_prefix q s -> is_prefix p s.
Proof.
  intros (t & ->) (u & ->). exists (t ++ u). apply eq_sym, app_assoc.
Qed.

(** X13. An entry is shadowed by an earlier one whose [Number] is a
    leading part of its own: if the entries before [e2] in the catalog
    include such an [e1] and no copy of [e2], no text resolves to
    [e2]. *)
Theorem resolve_shadowed_entry :
  forall (rawText : jsstring) (before after : list HotWheelsEntry)
         (e1 e2 : HotWheelsEntry),
    In e1 before -> ~ In e2 before ->
    is_prefix (Number e1) (Number e2) ->
    resolve rawText (before ++ e2 :: after) <> Some e2.
Proof.
  intros rawText before after e1 e2 H1 H2 P R.
  apply resolve_Some_structural in R. destruct R as (a & b & _ & F).
  assert (F2 : startsWith a (Number e2) = true)
    by (apply find_some in F; apply F).
  assert (F1 : startsWith a (Number e1) = true).
  { apply startsWith_is_prefix. apply (is_prefix_trans _ _ _ P).
    apply startsWith_is_prefix. exact F2. }
  destruct (find_in_front (fun e => startsWith a (Number e))
              before (e2 :: after) e1 H1 F1) as (y & Hy & Iy).
  rewrite Hy in F. injection F as ->. contradiction.
Qed.

Lemma resolve_shadowed_entry_witness :
  resolve (str "AB12-XY99") ([entry_AB1] ++ entry_AB12 :: [entry_blank])
  <> Some entry_AB12.
Proof.
  apply (resolve_shadowed_entry (str "AB12-XY99")
           [entry_AB1] [entry_blank] entry_AB1 entry_AB12).
  - left. reflexivity.
  - intros [E|[]]. discriminate E.
  - exists (str "2"). reflexivity.
Defined.

(* ================================================================== *)
(** * The console reports each change once *)

Lemma updated_numbers_app (l l' : list LogLine) :
  updated_numbers (l ++ l') = updated_numbers l ++ updated_numbers l'.
Proof.
  induction l as [|line l IH]; [reflexivity|].
  destruct line; cbn; rewrite IH; reflexivity.
Qed.

Lemma last_number_snoc (l : list jsstring) (x : jsstring) :
  last_number (l ++ [x]) = Some x.
Proof.
  induction l as [|y l IH]; [reflexivity|].
  cbn [app last_number]. destruct (l ++ [x]) eqn:E.
  - destruct l; discriminate E.
  - exact IH.
Qed.

Lemma no_adjacent_repeat_snoc (l : list jsstring) (x : jsstring) :
  no_adjacent_repeat l -> last_number l <> Some x ->
  no_adjacent_repeat (l ++ [x]).
Proof.
  induction l as [|y l IH]; intros N L.
  - cbn. split; exact I.
  - destruct l as [|z l].
    + cbn in *. split; [|split; exact I]. intros ->. apply L. reflexivity.
    + destruct N as (Nyz & N). split; [exact Nyz|].
      apply IH; [exact N | exact L].
Qed.

Lemma step_reports_consistent (st : State) (ev : Event) :
  reports_consistent st -> reports_consistent (step st ev).
Proof.
  intros (N & L). destruct ev as [now frame|[rawText|err]];
    cbn [step maybeRunOCR_resume].
  - destruct (maybeRunOCR_start_cases now frame st)
      as [(_ & _ & ->)|(_ & ->)]; split; assumption.
  - assert (E : updated_numbers (console st ++ [Log_OCRResult (trim rawText)])
                = updated_numbers (console st)).
    { rewrite updated_numbers_app. apply app_nil_r. }
    unfold update. cbn [log hotwheelsData currentEntry].
    destruct (resolve rawText (hotwheelsData st)) as [m|].
    + destruct (number_differs m (currentEntry st)) eqn:D.
      * unfold reports_consistent.
        cbn [fst log updateTable set_currentEntry console currentEntry
             option_map].
        rewrite updated_numbers_app, E. cbn [updated_numbers].
        split; [|apply last_number_snoc].
        apply no_adjacent_repeat_snoc; [exact N|].
        rewrite L. destruct (currentEntry st) as [c|]; [|discriminate].
        cbn in *. intros [= H]. rewrite H, str_eqb_refl in D. discriminate D.
      * unfold reports_consistent. cbn [fst log console currentEntry].
        rewrite E. split; assumption.
    + unfold reports_consistent. cbn [fst log console currentEntry].
      rewrite E. split; assumption.
  - unfold reports_consistent. cbn [log console currentEntry].
    rewrite updated_numbers_app. cbn [updated_numbers].
    rewrite app_nil_r. split; assumption.
Qed.

(** X14. Each change is reported once: from startup on, the console
    never reports the same number twice in a row (between two reports
    of one number another number was reported), and the number last
    reported is that of the current entry. *)
Theorem updates_never_repeat :
  forall (catalog : list HotWheelsEntry) (cv : Canvas) (evs : list Event),
    let st := run (startup catalog cv) evs in
    no_adjacent_repeat (updated_numbers (console st)) /\
    last_number (updated_numbers (console st)) =
    option_map Number (currentEntry st).
Proof.
  intros catalog cv evs.
  assert (G : forall st, reports_consistent st ->
                         reports_consistent (run st evs)).
  { induction evs as [|ev evs IH]; intros st T; cbn.
    - exact T.
    - apply IH. apply step_reports_consistent. exact T. }
  apply (G (startup catalog cv)). split; [exact I | reflexivity].
Qed.

(* ================================================================== *)
(** * What the lookup reads of the recognized text *)

Section TrimFacts.

Let blank (s : jsstring) : Prop := Forall (fun c => isWhiteSpace c = true) s.

Lemma trimStart_blank (s : jsstring) : blank s -> trimStart s = [].
Proof.
  induction 1 as [|c s Hc _ IH]; [reflexivity|].
  cbn. rewrite Hc. exact IH.
Qed.

Lemma trimStart_blank_app (pre s : jsstring) :
  blank pre -> trimStart (pre ++ s) = trimStart s.
Proof.
  induction 1 as [|c pre Hc _ IH]; [reflexivity|].
  cbn. rewrite Hc. exact IH.
Qed.

Lemma trimEnd_app_blank (s post : jsstring) :
  blank post -> trimEnd (s ++ post) = trimEnd s.
Proof.
  intro B. unfold trimEnd. rewrite rev_app_distr.
  rewrite trimStart_blank_app; [reflexivity|].
  apply Forall_rev. exact B.
Qed.

Lemma trim_padding (pre s post : jsstring) :
  blank pre -> blank post -> trim (pre ++ s ++ post) = trim s.
Proof.
  intros Bpre Bpost. unfold trim. rewrite (trimStart_blank_app _ _ Bpre).
  induction s as [|c s IH].
  - cbn [app]. rewrite (trimStart_blank _ Bpost). reflexivity.
  - cbn [app trimStart]. destruct (isWhiteSpace c); [exact IH|].
    apply (trimEnd_app_blank (c :: s) post Bpost).
Qed.

End TrimFacts.

(** X15. The lookup reads only the first segment of the trimmed text:
    white space around the recognized text makes no difference, and two
    texts of the structural shape with the same segment before the
    hyphen resolve alike. *)
Theorem resolve_reads_first_segment :
  forall (catalog : list HotWheelsEntry),
    (forall pre text post : jsstring,
        Forall (fun c => isWhiteSpace c = true) pre ->
        Forall (fun c => isWhiteSpace c = true) post ->
        resolve (pre ++ text ++ post) catalog = resolve text catalog) /\
    (forall text1 text2 a b1 b2 : jsstring,
        structural (trim text1) a b1 ->
        structural (trim text2) a b2 ->
        resolve text1 catalog = resolve text2 catalog).
Proof.
  intro catalog. split.
  - intros pre text post Bpre Bpost. unfold resolve.
    rewrite (trim_padding pre text post Bpre Bpost). reflexivity.
  - intros text1 text2 a b1 b2 S1 S2.
    rewrite (resolve_structural _ _ _ _ S1), (resolve_structural _ _ _ _ S2).
    reflexivity.
Qed.

Lemma resolve_reads_first_segment_witness :
  resolve (str "  " ++ str "AB12-XY99" ++ [10%N]) [entry_AB12] =
  resolve (str "AB12-XY99") [entry_AB12] /\
  resolve (str "AB12-XY99") [entry_AB12] =
  resolve (str "AB12-00000") [entry_AB12].
Proof.
  destruct (resolve_reads_first_segment [entry_AB12]) as (P & S). split.
  - apply P; repeat constructor.
  - apply (S _ _ (str "AB12") (str "XY99") (str "00000")).
    + exact AB12_XY99_structural.
    + split; [reflexivity|].
      split; (split; [cbn; lia | repeat constructor]).
Defined.

Lemma in_whitelist (c : N) : isCodeChar c = true -> In c char_whitelist.
Proof.
  intro H.
  assert (B : existsb (N.eqb c) char_whitelist = true).
  { unfold isCodeChar in H.
    apply orb_true_iff in H.
    assert (R : (exists n, (n < 26)%nat /\ c = N.of_nat (65 + n)) \/
                (exists n, (n < 10)%nat /\ c = N.of_nat (48 + n))).
    { destruct H as [H|H]; apply andb_true_iff in H; destruct H as (Lo & Hi);
        apply N.leb_le in Lo, Hi; cbn in Lo, Hi.
      - left. exists (N.to_nat c - 65)%nat. split; lia.
      - right. exists (N.to_nat c - 48)%nat. split; lia. }
    destruct R as [(n & Hn & ->)|(n & Hn & ->)].
    - do 26 (destruct n as [|n]; [reflexivity|]). lia.
    - do 10 (destruct n as [|n]; [reflexivity|]). lia. }
  apply existsb_exists in B. destruct B as (x & Hx & E).
  apply N.eqb_eq in E. subst x. exact Hx.
Qed.

(** X16. The texts [CODE_REGEX] accepts have seven to eleven
    characters, exactly one hyphen, and only characters of the
    worker's whitelist. *)
Theorem CODE_REGEX_accepted_texts :
  forall text : jsstring,
    test CODE_REGEX text = true ->
    (7 <= List.length text <= 11)%nat /\
    count_occ N.eq_dec text (code "-") = 1%nat /\
    Forall (fun c => In c char_whitelist) text.
Proof.
  intros text T. apply CODE_REGEX_structural in T.
  destruct T as (a & b & -> & Sa & Sb).
  pose proof (code_segment_no_hyphen a Sa) as Na.
  pose proof (code_segment_no_hyphen b Sb) as Nb.
  destruct Sa as (La & Fa), Sb as (Lb & Fb).
  split; [|split].
  - rewrite length_app. cbn [List.length]. lia.
  - rewrite count_occ_app. cbn [count_occ].
    destruct (N.eq_dec (code "-") (code "-")) as [_|C]; [|contradiction].
    rewrite (proj1 (count_occ_not_In N.eq_dec a (code "-")) Na).
    rewrite (proj1 (count_occ_not_In N.eq_dec b (code "-")) Nb).
    reflexivity.
  - apply Forall_app. split.
    + eapply Forall_impl; [|exact Fa]. intros c. apply in_whitelist.
    + constructor.
      * assert (B : existsb (N.eqb (code "-")) char_whitelist = true)
          by reflexivity.
        apply existsb_exists in B. destruct B as (x & Hx & E).
        apply N.eqb_eq in E. subst x. exact Hx.
      * eapply Forall_impl; [|exact Fb]. intros c. apply in_whitelist.
Qed.

Lemma CODE_REGEX_accepted_texts_witness :
  (7 <= List.length (str "AB12-XY99") <= 11)%nat /\
  count_occ N.eq_dec (str "AB12-XY99") (code "-") = 1%nat /\
  Forall (fun c => In c char_whitelist) (str "AB12-XY99").
Proof.
  apply (CODE_REGEX_accepted_texts (str "AB12-XY99")). reflexivity.
Defined.

(* ================================================================== *)
(** * Drawing, pixels and video sources *)

(** X17. [drawFrame] fills the canvas without distortion: its
    [drawImage] call stretches the crop over the whole canvas with one
    magnification on both axes, the larger of
    [canvas.width / frame.width] and [canvas.height / frame.height], so
    that the magnified frame covers the canvas. *)
Theorem drawFrame_covers_undistorted :
  forall (frame : Frame) (canvas : Canvas),
    0 < width frame -> 0 < height frame ->
    0 < canvas_width canvas -> 0 < canvas_height canvas ->
    let call := Render.drawFrame canvas frame in
    let zoom := Qmax (canvas_width canvas / width frame)
                     (canvas_height canvas / height frame) in
    Render.dx call == 0 /\ Render.dy call == 0 /\
    Render.dw call == canvas_width canvas /\
    Render.dh call == canvas_height canvas /\
    Render.dw call / sw (Render.src call) == zoom /\
    Render.dh call / sh (Render.src call) == zoom /\
    canvas_width canvas <= width frame * zoom /\
    canvas_height canvas <= height frame * zoom.
Proof.
  intros frame canvas Hw Hh Hcw Hch call zoom. subst call.
  unfold Render.drawFrame. cbn [Render.dx Render.dy Render.dw Render.dh Render.src].
  set (W := width frame) in *. set (H := height frame) in *.
  set (cw := canvas_width canvas) in *. set (ch := canvas_height canvas) in *.
  assert (Z : (zoom == cw / W /\ ch / H <= cw / W) \/
              (zoom == ch / H /\ cw / W <= ch / H)).
  { destruct (Qlt_le_dec (cw / W) (ch / H)) as [C|C].
    - right. split; [apply Q.max_r|]; apply Qlt_le_weak; exact C.
    - left. split; [apply Q.max_l|]; exact C. }
  assert (ZW : cw <= W * zoom).
  { assert (E : cw == W * (cw / W)) by (field; lra).
    destruct Z as [(-> & _)|(-> & C)]; [lra|].
    rewrite E at 1. apply Qmult_le_l; assumption. }
  assert (ZH : ch <= H * zoom).
  { assert (E : ch == H * (ch / H)) by (field; lra).
    destruct Z as [(-> & C)|(-> & _)]; [|lra].
    rewrite E at 1. apply Qmult_le_l; assumption. }
  repeat match goal with |- _ /\ _ => split end;
    try reflexivity; try assumption.
  - destruct (cover_crop_cases W H cw ch) as [(C & ->)|(C & ->)];
      cbn [sx sy sw sh].
    + apply (ratio_gt_cross W H cw ch Hh Hch) in C.
      assert (M : zoom == ch / H).
      { apply Q.max_r. apply Qlt_le_weak.
        apply (ratio_gt_cross ch H cw W Hh Hw). lra. }
      rewrite M. field. repeat split; lra.
    + apply (ratio_le_cross W H cw ch Hh Hch) in C.
      assert (M : zoom == cw / W).
      { apply Q.max_l. apply (ratio_le_cross ch H cw W Hh Hw). lra. }
      rewrite M. reflexivity.
  - destruct (cover_crop_cases W H cw ch) as [(C & ->)|(C & ->)];
      cbn [sx sy sw sh].
    + apply (ratio_gt_cross W H cw ch Hh Hch) in C.
      assert (M : zoom == ch / H).
      { apply Q.max_r. apply Qlt_le_weak.
        apply (ratio_gt_cross ch H cw W Hh Hw). lra. }
      rewrite M. reflexivity.
    + apply (ratio_le_cross W H cw ch Hh Hch) in C.
      assert (M : zoom == cw / W).
      { apply Q.max_l. apply (ratio_le_cross ch H cw W Hh Hw). lra. }
      rewrite M. field. repeat split; lra.
Qed.

Lemma drawFrame_covers_undistorted_witness :
  let call := Render.drawFrame (mkCanvas 640 480) (mkFrame 1280 720) in
  Render.dw call / sw (Render.src call)
  == Qmax (640 / 1280) (480 / 720).
Proof.
  pose proof (drawFrame_covers_undistorted
                (mkFrame 1280 720) (mkCanvas 640 480)
                eq_refl eq_refl eq_refl eq_refl) as (_ & _ & _ & _ & Z & _).
  exact Z.
Defined.

Lemma preprocessOCR_length (stored : N -> N -> N -> N) (d : list N) :
  List.length (Pixels.preprocessOCR stored d) = List.length d.
Proof.
  assert (G : forall n d, (List.length d <= n)%nat ->
              List.length (Pixels.preprocessOCR stored d) = List.length d).
  { intro n. induction n as [|n IH]; intros l Hl.
    - destruct l; [reflexivity | cbn in Hl; lia].
    - destruct l as [|r [|g [|b [|a rest]]]]; try reflexivity.
      cbn [Pixels.preprocessOCR List.length]. do 4 f_equal.
      apply IH. cbn in Hl. lia. }
  apply (G (List.length d)). lia.
Qed.

Lemma preprocessOCR_pixel (stored : N -> N -> N -> N) (k : nat) (d : list N) :
  (4 * k + 3 < List.length d)%nat ->
  let out := Pixels.preprocessOCR stored d in
  let v := stored (nth (4 * k) d 0%N) (nth (4 * k + 1) d 0%N)
                  (nth (4 * k + 2) d 0%N) in
  nth (4 * k) out 0%N = v /\ nth (4 * k + 1) out 0%N = v /\
  nth (4 * k + 2) out 0%N = v /\
  nth (4 * k + 3) out 0%N = nth (4 * k + 3) d 0%N.
Proof.
  revert d. induction k as [|k IH]; intros d Hd.
  - destruct d as [|r [|g [|b [|a rest]]]]; cbn in Hd; try lia.
    cbn. repeat split.
  - destruct d as [|r [|g [|b [|a rest]]]]; cbn in Hd; try lia.
    specialize (IH rest). cbv zeta in IH.
    replace (4 * S k)%nat with (S (S (S (S (4 * k))))) by lia.
    cbn [Pixels.preprocessOCR Nat.add nth]. cbv zeta.
    apply IH. lia.
Qed.

(** X18. [preprocessOCR] greys every pixel and nothing else: the data
    keeps its length, every alpha byte keeps its value, and the red,
    green and blue bytes of a pixel all become one value, which depends
    on that pixel's red, green and blue alone. *)
Theorem preprocessOCR_greys_each_pixel :
  forall (stored : N -> N -> N -> N) (d : list N),
    List.length (Pixels.preprocessOCR stored d) = List.length d /\
    forall k : nat,
      (4 * k + 3 < List.length d)%nat ->
      let out := Pixels.preprocessOCR stored d in
      let v := stored (nth (4 * k) d 0%N) (nth (4 * k + 1) d 0%N)
                      (nth (4 * k + 2) d 0%N) in
      nth (4 * k) out 0%N = v /\ nth (4 * k + 1) out 0%N = v /\
      nth (4 * k + 2) out 0%N = v /\
      nth (4 * k + 3) out 0%N = nth (4 * k + 3) d 0%N.
Proof.
  intros stored d. split.
  - apply preprocessOCR_length.
  - intro k. apply preprocessOCR_pixel.
Qed.

Lemma preprocessOCR_greys_each_pixel_witness :
  let d := [10; 20; 30; 255; 40; 50; 60; 128]%N in
  let out := Pixels.preprocessOCR (fun r g b => N.max r (N.max g b)) d in
  nth 4 out 0%N = 60%N /\ nth 5 out 0%N = 60%N /\ nth 6 out 0%N = 60%N /\
  nth 7 out 0%N = 128%N.
Proof.
  intros d out.
  destruct (preprocessOCR_greys_each_pixel
              (fun r g b => N.max r (N.max g b)) d) as (_ & P).
  apply (P 1%nat). cbn. lia.
Defined.

Section DeviceFacts.

Import Devices.


Lemma append_options_nth (cams : list MediaDeviceInfo) (s i : nat) :
  nth_error (append_options s cams) i =
  option_map (fun d => {| value := deviceId d; text := option_text d (s + i) |})
             (nth_error cams i).
Proof.
  revert s i. induction cams as [|d cams IH]; intros s i.
  - destruct i; reflexivity.
  - destruct i as [|i]; cbn.
    + rewrite Nat.add_0_r. reflexivity.
    + rewrite IH. replace (S s + i)%nat with (s + S i)%nat by lia.
      reflexivity.
Qed.

Lemma str_inj (a b : string) : str a = str b -> a = b.
Proof.
  unfold str. intro H.
  rewrite <- (string_of_list_ascii_of_string a),
          <- (string_of_list_ascii_of_string b).
  f_equal. revert H.
  generalize (list_ascii_of_string a) (list_ascii_of_string b).
  intro l. induction l as [|x l IH]; intros [|y l'] H; try discriminate.
  - reflexivity.
  - cbn in H. injection H as Hxy Hl. f_equal; [|apply IH; exact Hl].
    unfold code in Hxy.
    rewrite <- (ascii_N_embedding x), <- (ascii_N_embedding y), Hxy.
    reflexivity.
Qed.

Lemma toString_inj (n m : nat) : toString n = toString m -> n = m.
Proof.
  unfold toString. intro H. apply str_inj in H.
  apply Unsigned.to_uint_inj.
  assert (E : NilEmpty.uint_of_string (NilEmpty.string_of_uint (Nat.to_uint n))
              = NilEmpty.uint_of_string (NilEmpty.string_of_uint (Nat.to_uint m)))
    by (rewrite H; reflexivity).
  rewrite !NilEmpty.usu in E. injection E as E. exact E.
Qed.



End DeviceFacts.


(** X20. Cameras without a label are told apart: the option of the
    [i]-th camera (counting video input devices from 0) with an empty
    label reads [Camera] followed by [i + 1], and two such options at
    different positions never read the same. *)
Theorem populateVideoSources_unlabelled_distinct :
  forall (devices : list Devices.MediaDeviceInfo)
         (select : list Devices.OptionElement)
         (i j : nat) (di dj : Devices.MediaDeviceInfo),
    let cams :=
      filter (fun d => str_eqb (Devices.kind d) (str "videoinput")) devices in
    let opts := Devices.populateVideoSources devices select in
    nth_error cams i = Some di -> nth_error cams j = Some dj ->
    Devices.label di = [] -> Devices.label dj = [] -> i <> j ->
    exists oi oj,
      nth_error opts i = Some oi /\ nth_error opts j = Some oj /\
      Devices.text oi = str "Camera " ++ Devices.toString (i + 1) /\
      Devices.text oi <> Devices.text oj.
Proof.
  intros devices select i j di dj cams opts Hi Hj Li Lj Hij.
  subst opts. unfold Devices.populateVideoSources. cbn [app].
  fold cams. rewrite !append_options_nth, Hi, Hj. cbn [option_map Nat.add].
  eexists. eexists. split; [reflexivity|]. split; [reflexivity|].
  cbn [Devices.text]. unfold Devices.option_text. rewrite Li, Lj.
  split; [reflexivity|].
  intro E. apply app_inv_head in E. apply toString_inj in E. lia.
Qed.

Lemma populateVideoSources_unlabelled_distinct_witness :
  let cam := Devices.mkDevice (str "videoinput") (str "id") [] in
  let mic := Devices.mkDevice (str "audioinput") (str "m") (str "Mic") in
  exists oi oj,
    nth_error (Devices.populateVideoSources [cam; mic; cam] []) 0 = Some oi /\
    nth_error (Devices.populateVideoSources [cam; mic; cam] []) 1 = Some oj /\
    Devices.text oi = str "Camera " ++ Devices.toString (0 + 1) /\
    Devices.text oi <> Devices.text oj.
Proof.
  intros cam mic.
  apply (populateVideoSources_unlabelled_distinct
           [cam; mic; cam] [] 0 1 cam cam); try reflexivity.
  discriminate.
Defined.

(* ================================================================== *)
(** * From a recognized text to the table *)

Lemma run_table_shows_entry (evs : list Event) (st : State) :
  table st = currentEntry st ->
  table (run st evs) = currentEntry (run st evs).
Proof.
  revert st. induction evs as [|ev evs IH]; intros st T; cbn.
  - exact T.
  - apply IH. apply step_table_shows_entry. exact T.
Qed.

Lemma run_hotwheelsData (evs : list Event) (st : State) :
  hotwheelsData (run st evs) = hotwheelsData st.
Proof.
  revert st. unfold run.
  induction evs as [|ev evs IH]; intro st; cbn [fold_left].
  - reflexivity.
  - rewrite IH. apply step_hotwheelsData.
Qed.

(** X21. From startup on, whatever happened before: when a recognized
    text resolves to an entry of the catalog, that entry is the current
    entry and the one in the table once the result is handled; when it
    resolves to nothing, the current entry and the table stay as they
    were. *)
Theorem recognized_text_sets_entry :
  forall (catalog : list HotWheelsEntry) (cv : Canvas) (evs : list Event)
         (rawText : jsstring),
    let st := run (startup catalog cv) evs in
    let st' := step st (RecognitionSettled (Recognized rawText)) in
    (forall m, resolve rawText catalog = Some m ->
               currentEntry st' = Some m /\ table st' = Some m) /\
    (resolve rawText catalog = None ->
     currentEntry st' = currentEntry st /\ table st' = table st).
Proof.
  intros catalog cv evs rawText st st'.
  assert (D : hotwheelsData st = catalog)
    by (subst st; apply run_hotwheelsData).
  assert (T : table st' = currentEntry st').
  { subst st'. apply step_table_shows_entry.
    subst st. apply run_table_shows_entry. reflexivity. }
  split.
  - intros m R. rewrite T.
    assert (C : currentEntry st' = Some m); [|split; exact C].
    subst st'. cbn [step maybeRunOCR_resume].
    cbn [log hotwheelsData]. rewrite D, R. unfold update.
    cbn [log currentEntry].
    destruct (number_differs m (currentEntry st)) eqn:N; [reflexivity|].
    apply number_differs_false in N. destruct N as (c & Hc & E).
    cbn [fst log currentEntry]. rewrite Hc. f_equal.
    rewrite <- D in R.
    apply (reached_same_number_same_entry catalog cv evs rawText m c R Hc).
    symmetry. exact E.
  - intro R. subst st'. cbn [step maybeRunOCR_resume].
    cbn [log hotwheelsData]. rewrite D, R. split; reflexivity.
Qed.

Lemma recognized_text_sets_entry_witness :
  currentEntry
    (step (run (startup [entry_AB12; entry_AB1] (mkCanvas 640 480))
               [FrameGrabbed 800 (mkFrame 1280 720)])
          (RecognitionSettled (Recognized (str "AB12-XY99")))) =
  Some entry_AB12.
Proof.
  pose proof (recognized_text_sets_entry
                [entry_AB12; entry_AB1] (mkCanvas 640 480)
                [FrameGrabbed 800 (mkFrame 1280 720)] (str "AB12-XY99"))
    as (S & _).
  apply (S entry_AB12). reflexivity.
Defined.
